(** * Copywork editor: the interaction engine of the typing-practice surface

    A shallow embedding of [Component/Screen/Editor/hooks/useEditorEvents.ts]
    and of the editor's [utils] module (word boundaries, line lookup, word
    segmentation), followed by the properties of the position mapper, the
    paste normaliser, the two correction engines, the click-to-jump handler
    and the key-up error scan.

    Conventions of the embedding:
    - a JavaScript string is the list of its UTF-16 code units;
    - a JavaScript number that is used as an index or an offset is an
      integer of [Z] (negative values occur: [lastIndexOf] answers [-1],
      [slice] accepts offsets counted from the end);
    - a DOM node is a tree of text and element nodes; a node is referred
      to by its path from the root of the tree, so that [===] on nodes is
      equality of paths;
    - a call that raises a DOM or type exception returns [Throws]. *)

From Stdlib Require Import Strings.String Strings.Ascii.
From Stdlib Require Import ZArith NArith Lia Sorted DecimalNat.
From stdpp Require Import base list numbers.

Set Default Proof Using "Type".
Local Open Scope Z_scope.

(* ================================================================== *)
(** * JavaScript strings *)
(* ================================================================== *)

Module JS.

(** A UTF-16 code unit. *)
Abbreviation char := N (only parsing).

(** A string: the list of its code units. *)
Abbreviation jsstring := (list char) (only parsing).

Definition SPACE : char := 32%N.
Definition TAB : char := 9%N.
Definition LF : char := 10%N.
Definition CR : char := 13%N.

(** String literals of the development: the code units of an ASCII text. *)
Definition js (s : string) : jsstring :=
  map N_of_ascii (list_ascii_of_string s).
Arguments js s%_string.

Definition char_eqb (a b : char) : bool := N.eqb a b.

(** [a === b] on strings. *)
Fixpoint str_eqb (a b : jsstring) : bool :=
  match a, b with
  | [], [] => true
  | x :: a', y :: b' => char_eqb x y && str_eqb a' b'
  | _, _ => false
  end.

(** [s.length] *)
Definition len (s : jsstring) : Z := Z.of_nat (length s).

(** [s[i]]: [None] stands for [undefined]. *)
Definition at_index (s : jsstring) (i : Z) : option char :=
  if i <? 0 then None else s !! Z.to_nat i.

(** [s[i] === c] for a one-character string [c]. *)
Definition at_is (s : jsstring) (i : Z) (c : char) : bool :=
  match at_index s i with
  | Some x => char_eqb x c
  | None => false
  end.

(** ECMAScript WhiteSpace and LineTerminator code units: what [trim]
    strips and what the class [\s] matches. *)
Definition isWhiteSpace (c : char) : bool :=
  ((9 <=? c) && (c <=? 13) || (c =? 32) || (c =? 160) || (c =? 5760)
   || (8192 <=? c) && (c <=? 8202) || (c =? 8232) || (c =? 8233)
   || (c =? 8239) || (c =? 8287) || (c =? 12288) || (c =? 65279))%N.

(** First index holding [c], if any. *)
Fixpoint index_of (c : char) (s : jsstring) : option nat :=
  match s with
  | [] => None
  | x :: s' => if char_eqb x c then Some 0%nat
               else option_map S (index_of c s')
  end.

(** Last index holding [c], if any. *)
Fixpoint last_index_of (c : char) (s : jsstring) : option nat :=
  match s with
  | [] => None
  | x :: s' => match last_index_of c s' with
               | Some i => Some (S i)
               | None => if char_eqb x c then Some 0%nat else None
               end
  end.

Definition clamp (lo hi x : Z) : Z := Z.min (Z.max x lo) hi.

(** [s.indexOf(c, position)] for a one-character search string: the
    search starts at [position] clamped to [0, s.length]; [-1] when
    there is no occurrence. *)
Definition indexOf (s : jsstring) (c : char) (position : Z) : Z :=
  let start := Z.to_nat (clamp 0 (len s) position) in
  match index_of c (drop start s) with
  | Some k => Z.of_nat (start + k)
  | None => -1
  end.

(** [s.lastIndexOf(c, position)] for a one-character search string: the
    greatest index at most [position] (clamped to [0, s.length]) that
    holds [c]; an [undefined] position is NaN, which searches the whole
    string; [-1] when there is no occurrence. *)
Definition lastIndexOf (s : jsstring) (c : char) (position : option Z) : Z :=
  let start :=
    match position with
    | Some p => Z.to_nat (clamp 0 (len s) p)
    | None => length s
    end in
  match last_index_of c (take (S start) s) with
  | Some k => Z.of_nat k
  | None => -1
  end.

(** An offset of [slice]: negative offsets count from the end. *)
Definition relative (l k : Z) : Z :=
  if k <? 0 then Z.max (l + k) 0 else Z.min k l.

(** [s.slice(from, to)]; [to = None] is the one-argument call. *)
Definition slice (s : jsstring) (from : Z) (to : option Z) : jsstring :=
  let l := len s in
  let a := relative l from in
  let b := match to with Some t => relative l t | None => l end in
  take (Z.to_nat (b - a)) (drop (Z.to_nat a) s).

(** [s.substring(a, b)]: both offsets are clamped and then ordered. *)
Definition substring (s : jsstring) (a b : Z) : jsstring :=
  let l := len s in
  let a' := clamp 0 l a in
  let b' := clamp 0 l b in
  let from := Z.min a' b' in
  let to := Z.max a' b' in
  take (Z.to_nat (to - from)) (drop (Z.to_nat from) s).

Fixpoint trimStart (s : jsstring) : jsstring :=
  match s with
  | [] => []
  | x :: s' => if isWhiteSpace x then trimStart s' else s
  end.

Definition trimEnd (s : jsstring) : jsstring := rev (trimStart (rev s)).

(** [s.trim()] *)
Definition trim (s : jsstring) : jsstring := trimEnd (trimStart s).

(** [s.replace(/c+/g, rep)], the global replacement of a greedy run of
    one character ([/c{1,}/g] is the same pattern).  The scanner emits
    [rep] where a match opens and swallows the rest of the run; [inrun]
    tells that the previous code unit belonged to the current match. *)
Fixpoint replaceRuns_from (inrun : bool) (c : char) (rep s : jsstring)
  : jsstring :=
  match s with
  | [] => []
  | x :: s' =>
      if char_eqb x c
      then (if inrun then [] else rep) ++ replaceRuns_from true c rep s'
      else x :: replaceRuns_from false c rep s'
  end.

Definition replaceRuns (c : char) (rep s : jsstring) : jsstring :=
  replaceRuns_from false c rep s.

(** [s.replace(/c/g, rep)]: every occurrence is a match of its own. *)
Fixpoint replaceEach (c : char) (rep s : jsstring) : jsstring :=
  match s with
  | [] => []
  | x :: s' =>
      if char_eqb x c then rep ++ replaceEach c rep s'
      else x :: replaceEach c rep s'
  end.

(** Puts one more code unit in front of the piece being read. *)
Definition cons_head (x : char) (pieces : list jsstring) : list jsstring :=
  match pieces with
  | w :: ws => (x :: w) :: ws
  | [] => [[x]]
  end.

(** [s.split(c)] for a one-character separator. *)
Fixpoint split_char (c : char) (s : jsstring) : list jsstring :=
  match s with
  | [] => [[]]
  | x :: s' =>
      if char_eqb x c then [] :: split_char c s'
      else cons_head x (split_char c s')
  end.

(** [s.split(/(\s+)/)]: the pieces between the maximal whitespace runs,
    with every run kept as a piece of its own (the capture group), so the
    pieces at even indices are free of whitespace and those at odd
    indices are the separators.  [inws] tells that the piece being read
    is a whitespace run; a run that ends the string is followed by a last,
    empty piece. *)
Fixpoint split_ws_from (inws : bool) (s : jsstring) : list jsstring :=
  match s with
  | [] => if inws then [[]; []] else [[]]
  | x :: s' =>
      if Bool.eqb (isWhiteSpace x) inws
      then cons_head x (split_ws_from inws s')
      else [] :: cons_head x (split_ws_from (negb inws) s')
  end.

Definition split_ws (s : jsstring) : list jsstring := split_ws_from false s.

End JS.

Import JS.

(* ================================================================== *)
(** * The document tree and the selection *)
(* ================================================================== *)

Module Dom.

(** A DOM tree of text nodes and element nodes.  Attributes, comments and
    other node kinds play no part in the editor's logic. *)
#[warnings="-register-all"]
Inductive node : Type :=
  | Text (data : jsstring)
  | Element (children : list node).

(** A reference to a node: the child indices leading to it from the root
    of the tree.  Two references denote the same node exactly when they
    are equal. *)
Abbreviation path := (list nat) (only parsing).

Fixpoint path_eqb (p q : path) : bool :=
  match p, q with
  | [], [] => true
  | i :: p', j :: q' => Nat.eqb i j && path_eqb p' q'
  | _, _ => false
  end.

(** [n.childNodes] *)
Definition childNodes (n : node) : list node :=
  match n with
  | Text _ => []
  | Element cs => cs
  end.

(** [n.nodeType === Node.TEXT_NODE] *)
Definition isText (n : node) : bool :=
  match n with
  | Text _ => true
  | Element _ => false
  end.

(** [n.textContent]: the data of a text node, the concatenated text of
    the descendants of an element. *)
Fixpoint textContent (n : node) : jsstring :=
  match n with
  | Text d => d
  | Element cs => concat (map textContent cs)
  end.

(** The node a reference denotes in the tree [doc]. *)
Fixpoint node_at (doc : node) (p : path) {struct p} : option node :=
  match p with
  | [] => Some doc
  | i :: p' =>
      match childNodes doc !! i with
      | Some c => node_at c p'
      | None => None
      end
  end.

(** The tree in which the node at [p] has been replaced by its image
    under [f]; a reference that denotes no node changes nothing. *)
Fixpoint update_at (doc : node) (p : path) (f : node -> node) {struct p}
  : node :=
  match p with
  | [] => f doc
  | i :: p' =>
      match doc with
      | Text _ => doc
      | Element cs => Element (alter (fun c => update_at c p' f) i cs)
      end
  end.

(** The effect of the assignment [n.textContent = v]: a text node takes
    the new data; an element loses its children and, unless [v] is empty,
    gets one text node holding [v]. *)
Definition set_textContent (v : jsstring) (n : node) : node :=
  match n with
  | Text _ => Text v
  | Element _ => Element (match v with [] => [] | _ :: _ => [Text v] end)
  end.

(** [n.length] of the DOM standard: the number of code units of a text
    node, the number of children of an element. *)
Definition node_length (n : node) : Z :=
  match n with
  | Text d => len d
  | Element cs => Z.of_nat (length cs)
  end.

(** The text nodes of the subtree [n] in document order, each with its
    path from [n] ([n] itself when it is a text node). *)
Fixpoint text_nodes (n : node) : list (path * jsstring) :=
  match n with
  | Text d => [([], d)]
  | Element cs =>
      (fix children (i : nat) (cs : list node) : list (path * jsstring) :=
         match cs with
         | [] => []
         | c :: cs' =>
             map (fun pd => (i :: fst pd, snd pd)) (text_nodes c)
             ++ children (S i) cs'
         end) 0%nat cs
  end.

(** What [document.createTreeWalker(root, NodeFilter.SHOW_TEXT)] visits
    through [nextNode()]: the text descendants of [root] in document
    order, never [root] itself. *)
Definition treeWalker_text (doc : node) (root : path) : list (path * jsstring) :=
  match node_at doc root with
  | Some (Element cs) =>
      map (fun pd => (root ++ fst pd, snd pd)) (text_nodes (Element cs))
  | _ => []
  end.

(** [n.lastChild], as a reference *)
Definition lastChild (doc : node) (p : path) : option path :=
  match node_at doc p with
  | Some (Element (c :: cs)) => Some (p ++ [length cs])
  | _ => None
  end.

(** [n.textContent] through a reference; the empty string for a
    reference that denotes no node. *)
Definition textContent_at (doc : node) (p : path) : jsstring :=
  match node_at doc p with
  | Some n => textContent n
  | None => []
  end.

(** A range, of which the editor reads the start boundary only. *)
Record range : Type := Range {
  startContainer : path;
  startOffset : Z
}.

(** The outcome of a call that may raise an exception. *)
Inductive result (A : Type) : Type :=
  | Returns (a : A)
  | Throws.
Arguments Returns {A} a.
Arguments Throws {A}.

(** What the handlers read and write: the document, the window's
    selection ([None]: [window.getSelection()] is null; [Some None]: a
    selection without a range) and the target text held by the store
    ([None]: undefined). *)
Record state : Type := State {
  tree : node;
  windowSelection : option (option range);
  targetText : option jsstring
}.

(** [range.setStart(node, offset)] followed by [collapse(true)],
    [removeAllRanges()] and [addRange(range)].  [setStart] converts the
    offset to an unsigned long, which sends a negative offset above the
    length of every node, and raises IndexSizeError when the offset
    exceeds the length of the node. *)
Definition setCaret (p : path) (offset : Z) (st : state) : result state :=
  match node_at (tree st) p with
  | Some n =>
      if (offset <? 0) || (offset >? node_length n) then Throws
      else Returns (State (tree st) (Some (Some (Range p offset))) (targetText st))
  | None => Throws
  end.

(** [range.selectNodeContents(p); range.collapse(false)] and, when the
    window has a selection, [removeAllRanges(); addRange(range)]: the
    caret goes to the end of [p]. *)
Definition caretToEnd (p : path) (st : state) : state :=
  match windowSelection st, node_at (tree st) p with
  | Some _, Some n =>
      State (tree st) (Some (Some (Range p (node_length n)))) (targetText st)
  | _, _ => st
  end.

(** HTML fragment parsing, as far as [innerHTML = text] needs it: a text
    free of markup ([<], [&]) and of the code units the tokenizer
    rewrites (NUL, carriage return) becomes one text node, the empty
    text no node at all.  Other inputs are outside this model. *)
Definition plainText (s : jsstring) : bool :=
  forallb (fun c => negb ((c =? 60) || (c =? 38) || (c =? 0) || (c =? 13))%N) s.

Definition parseFragment (s : jsstring) : option (list node) :=
  if plainText s
  then Some (match s with [] => [] | _ :: _ => [Text s] end)
  else None.

End Dom.

Import Dom.

(* ================================================================== *)
(** * The editor's utilities (the [utils] module) *)
(* ================================================================== *)

Module Utils.

(** The class [[a-z0-9]] under the flag [i]: without the flag [u] no code
    unit outside ASCII folds onto an ASCII letter. *)
Definition isAlphanumeric (c : char) : bool :=
  ((48 <=? c) && (c <=? 57) || (65 <=? c) && (c <=? 90)
   || (97 <=? c) && (c <=? 122))%N.

(** [NotAlphanumericRegex.test(s)] with [NotAlphanumericRegex = /[^a-z0-9]/i]:
    some code unit of [s] is not an ASCII letter or digit. *)
Definition NotAlphanumericRegex_test (s : jsstring) : bool :=
  existsb (fun c => negb (isAlphanumeric c)) s.

(** The loop of [getCurrentLineIndex] over [node.parentNode.childNodes]:
    [self] is the index at which [child === node] holds. *)
Fixpoint getCurrentLineIndex_loop (childNodes : list node) (self : nat)
    (i : nat) (lineIndex offset : Z) (lastChild : option node) : Z :=
  match childNodes with
  | [] => 0
  | child :: rest =>
      let offset :=
        if str_eqb (textContent child) [LF]
           && match lastChild with
              | Some l => str_eqb (textContent l) [LF]
              | None => false
              end
        then offset + 1 else offset in
      if Nat.eqb i self then lineIndex - offset
      else getCurrentLineIndex_loop rest self (S i) (lineIndex + 1) offset
             (Some child)
  end.

(** [getCurrentLineIndex(node)]: the root of the tree has no parent. *)
Definition getCurrentLineIndex (doc : node) (node : path) : Z :=
  match rev node with
  | [] => 0
  | self :: parent =>
      match node_at doc (rev parent) with
      | Some p => getCurrentLineIndex_loop (childNodes p) self 0%nat 0 0 None
      | None => 0
      end
  end.

(** [getCurrentLine(contentToCopy, node)] *)
Definition getCurrentLine (contentToCopy : jsstring) (doc : node)
    (node : path) : jsstring :=
  match contentToCopy with
  | [] => []
  | _ :: _ =>
      let lines := split_char LF contentToCopy in
      let lineIndex := getCurrentLineIndex doc node in
      if lineIndex <? 0 then []
      else default [] (lines !! Z.to_nat lineIndex)
  end.

(** [wouldCreateConsecutiveSpaces(writer)] *)
Definition wouldCreateConsecutiveSpaces (writer : path) (st : state)
  : result bool :=
  match windowSelection st with
  | None => Returns false
  | Some None => Throws
  | Some (Some range) =>
      let onWriter := path_eqb (startContainer range) writer in
      let index :=
        if onWriter
        then match lastChild (tree st) writer with
             | Some l => len (textContent_at (tree st) l)
             | None => 0
             end
        else startOffset range in
      let node :=
        if onWriter then lastChild (tree st) writer
        else Some (startContainer range) in
      let line :=
        match node with
        | Some n => textContent_at (tree st) n
        | None => []
        end in
      Returns (at_is line (index - 1) SPACE || at_is line index SPACE)
  end.

(** [getPreviousSpace(text, offset)] *)
Definition getPreviousSpace (text : jsstring) (offset : option Z) : Z :=
  match text with
  | [] => 0
  | _ :: _ =>
      let index := lastIndexOf text SPACE offset in
      if index <? 0 then 0 else index + 1
  end.

(** [getNextSpace(text, offset)] *)
Definition getNextSpace (text : jsstring) (offset : Z) : Z :=
  match text with
  | [] => 0
  | _ :: _ =>
      let index := indexOf text SPACE offset in
      if index <? 0 then len text else index
  end.

(** The decimal digits of a number, as [`${index}`] prints an array
    index. *)
Fixpoint digits (d : Decimal.uint) : jsstring :=
  match d with
  | Decimal.Nil => []
  | Decimal.D0 d => 48%N :: digits d
  | Decimal.D1 d => 49%N :: digits d
  | Decimal.D2 d => 50%N :: digits d
  | Decimal.D3 d => 51%N :: digits d
  | Decimal.D4 d => 52%N :: digits d
  | Decimal.D5 d => 53%N :: digits d
  | Decimal.D6 d => 54%N :: digits d
  | Decimal.D7 d => 55%N :: digits d
  | Decimal.D8 d => 56%N :: digits d
  | Decimal.D9 d => 57%N :: digits d
  end.

Definition toString (index : nat) : jsstring := digits (Nat.to_uint index).

(** The leading decimal digits of [s], read into [acc]; the second
    component tells whether a digit was read. *)
Fixpoint parseDigits (s : jsstring) (acc : Z) (seen : bool) : Z * bool :=
  match s with
  | [] => (acc, seen)
  | x :: s' =>
      if ((48 <=? x) && (x <=? 57))%N
      then parseDigits s' (10 * acc + (Z.of_N x - 48)) true
      else (acc, seen)
  end.

(** [parseInt(s, 10)]: leading whitespace is skipped, a sign is read,
    then the longest run of decimal digits; [None] stands for NaN.  The
    value is the integer the digits denote, which is what JavaScript
    computes below 2^53. *)
Definition parseInt (s : jsstring) : option Z :=
  let s := trimStart s in
  let '(sign, s) :=
    match s with
    | 45%N :: s' => (-1, s')
    | 43%N :: s' => (1, s')
    | _ => (1, s)
    end in
  match parseDigits s 0 false with
  | (v, true) => Some (sign * v)
  | (_, false) => None
  end.

(** An element as the click handler reads it: [classList.contains('word')]
    and the [dataset] entries [offset], [editor] and [dontstealfocus]. *)
Record element : Type := Elem {
  isWord : bool;
  dataset_offset : option jsstring;
  dataset_editor : option jsstring;
  dataset_dontstealfocus : option jsstring
}.

(** [wrapWordsInSpans(text)]: every piece that is not blank is wrapped in
    a span of class [word] whose [data-offset] is the index of the piece.
    [QUOTE] is the double quote of the attribute values. *)
Definition QUOTE : char := 34%N.

Definition wrapWordsInSpans (text : jsstring) : jsstring :=
  concat
    (imap (fun (index : nat) (part : jsstring) =>
             if len (trim part) =? 0 then part
             else js "<span class=" ++ [QUOTE] ++ js "word" ++ [QUOTE]
                  ++ js " data-offset=" ++ [QUOTE] ++ toString index
                  ++ [QUOTE] ++ js ">" ++ part ++ js "</span>")
          (split_ws text)).

(** The element that the span rendered for the piece of index [index]
    is, as a click target. *)
Definition wordSpan (index : nat) : element :=
  Elem true (Some (toString index)) None None.

(** The loop of [getWordStartPosition]; reading [words[i].length] past
    the end of [words] raises a TypeError. *)
Fixpoint getWordStartPosition_loop (words : list jsstring) (count : nat)
    (position : Z) {struct count} : result Z :=
  match count with
  | O => Returns position
  | S count' =>
      match words with
      | [] => Throws
      | w :: words' =>
          getWordStartPosition_loop words' count' (position + len w)
      end
  end.

(** [getWordStartPosition(text, wordElement)]; a NaN or negative offset
    leaves the loop at once. *)
Definition getWordStartPosition (text : jsstring) (wordElement : element)
  : result Z :=
  let words := split_ws text in
  let offset :=
    parseInt (match dataset_offset wordElement with
              | Some (c :: o) => c :: o
              | _ => js "0"
              end) in
  match offset with
  | Some n => getWordStartPosition_loop words (Z.to_nat n) 0
  | None => Returns 0
  end.

End Utils.

Import Utils.

(* ================================================================== *)
(** * The event handlers ([useEditorEvents]) *)
(* ================================================================== *)

Module Editor.

(** The [while] loop of [getTextPosition] over the nodes the tree walker
    yields. *)
Fixpoint getTextPosition_loop (nodes : list (path * jsstring))
    (currentNode : path) (offset position : Z) : Z :=
  match nodes with
  | [] => position
  | (node, data) :: rest =>
      if path_eqb node currentNode then position + offset
      else getTextPosition_loop rest currentNode offset (position + len data)
  end.

(** [getTextPosition(editor, currentNode, offset)] *)
Definition getTextPosition (doc : node) (editor currentNode : path)
    (offset : Z) : Z :=
  getTextPosition_loop (treeWalker_text doc editor) currentNode offset 0.

(** A truthy string value: neither undefined nor empty. *)
Definition truthy (contentToCopy : option jsstring) : option jsstring :=
  match contentToCopy with
  | Some (c :: s) => Some (c :: s)
  | _ => None
  end.

Definition isTruthy (value : option jsstring) : bool :=
  match truthy value with
  | Some _ => true
  | None => false
  end.

(** [handleIgnorePunctuation(e, contentToCopy, writer)]; of the event
    only [e.key] is read. *)
Definition handleIgnorePunctuation (key : jsstring)
    (contentToCopy : option jsstring) (writer : path) (st : state)
  : result (bool * state) :=
  match truthy contentToCopy with
  | None => Returns (false, st)
  | Some target =>
  if negb (NotAlphanumericRegex_test key) || str_eqb key [SPACE]
  then Returns (false, st)
  else
  match windowSelection st with
  | None => Returns (false, st)
  | Some None => Throws
  | Some (Some range) =>
      let onWriter := path_eqb (startContainer range) writer in
      let node :=
        if onWriter then default writer (lastChild (tree st) writer)
        else startContainer range in
      let index :=
        if onWriter
        then match lastChild (tree st) writer with
             | Some l => len (textContent_at (tree st) l)
             | None => 0
             end
        else startOffset range in
      let line := getCurrentLine target (tree st) node in
      match line with
      | [] => Returns (false, st)
      | _ :: _ =>
          match at_index line index with
          | None => Returns (false, st)
          | Some letter =>
              if negb (NotAlphanumericRegex_test [letter])
                 || char_eqb letter LF
              then Returns (false, st)
              else
                let old := textContent_at (tree st) node in
                let new :=
                  slice old 0 (Some index) ++ [letter]
                  ++ slice old index None in
                let st1 :=
                  State (update_at (tree st) node (set_textContent new))
                        (windowSelection st) (targetText st) in
                match setCaret node (Z.min (index + 1) (len new)) st1 with
                | Returns st2 => Returns (true, st2)
                | Throws => Throws
                end
          end
      end
  end
  end.

(** The [while] loop of [handleAutocorrect] over the children of the
    writer: the first text child reached once [currentOffset + nodeLength
    >= start] holds is rewritten; the answer is its index, its new
    content and the caret offset asked for. *)
Fixpoint handleAutocorrect_loop (children : list node) (i : nat)
    (currentOffset start end_ : Z) (targetWord : jsstring)
    (willAddSpace : bool) : option (nat * jsstring * Z) :=
  match children with
  | [] => None
  | currentNode :: rest =>
      let nodeLength := len (textContent currentNode) in
      match currentNode with
      | Text data =>
          if currentOffset + nodeLength >=? start then
            let beforeText := slice data 0 (Some (start - currentOffset)) in
            let afterText := slice data (end_ - currentOffset) None in
            let newPosition :=
              start - currentOffset + len targetWord
              + (if willAddSpace then 1 else 0) in
            Some (i,
                  beforeText ++ targetWord
                  ++ (if willAddSpace then [SPACE] else []) ++ afterText,
                  newPosition)
          else
            handleAutocorrect_loop rest (S i) (currentOffset + nodeLength)
              start end_ targetWord willAddSpace
      | Element _ =>
          handleAutocorrect_loop rest (S i) (currentOffset + nodeLength)
            start end_ targetWord willAddSpace
      end
  end.

(** [handleAutocorrect(e, contentToCopy, writer, addSpace)]; of the event
    only [e.key] is read. *)
Definition handleAutocorrect (key : jsstring)
    (contentToCopy : option jsstring) (writer : path) (addSpace : bool)
    (st : state) : result (bool * state) :=
  match truthy contentToCopy with
  | None => Returns (false, st)
  | Some target =>
  match windowSelection st with
  | None => Returns (false, st)
  | Some None => Throws
  | Some (Some range) =>
      let node :=
        if path_eqb (startContainer range) writer
        then lastChild (tree st) writer
        else Some (startContainer range) in
      match node with
      | None => Returns (false, st)
      | Some node =>
          let fullText := textContent_at (tree st) writer in
          let currentPosition :=
            getTextPosition (tree st) writer node (startOffset range) in
          let start := getPreviousSpace fullText (Some currentPosition) in
          let end_ := getNextSpace target currentPosition in
          let willAddSpace := addSpace && (end_ <? len target) in
          let enteredWord := slice fullText start (Some currentPosition) in
          let targetWord := slice target start (Some end_) in
          if str_eqb enteredWord targetWord then Returns (false, st)
          else if (currentPosition >? start)
                  && (str_eqb key [SPACE] || (currentPosition =? end_))
          then
            match handleAutocorrect_loop
                    (childNodes (default (Element []) (node_at (tree st) writer)))
                    0%nat 0 start end_ targetWord willAddSpace with
            | None => Returns (true, st)
            | Some (i, new, newPosition) =>
                let currentNode := writer ++ [i] in
                let st1 :=
                  State (update_at (tree st) currentNode (set_textContent new))
                        (windowSelection st) (targetText st) in
                match setCaret currentNode (Z.min newPosition (len new)) st1 with
                | Returns st2 => Returns (true, st2)
                | Throws => Throws
                end
            end
          else Returns (false, st)
      end
  end
  end.

(** The chain of replacements of [onPaste] on the clipboard text. *)
Definition pastedData (data : jsstring) : jsstring :=
  trim
    (replaceRuns LF [LF; LF]
       (replaceEach CR []
          (replaceEach TAB []
             (replaceRuns SPACE [SPACE] data)))).

(** A paste event: [e.target.dataset.dontstealfocus] (truthy or not) and
    the text of the clipboard ([None]: no clipboard data). *)
Record pasteEvent : Type := PasteEvent {
  paste_dontstealfocus : bool;
  clipboardText : option jsstring
}.

(** [onPaste]: the answer tells whether the default action was
    prevented; [setContentToCopy] replaces the target text of the
    store. *)
Definition onPaste (contentToCopy : option jsstring) (e : pasteEvent)
    (st : state) : bool * state :=
  match truthy contentToCopy with
  | Some _ => (true, st)
  | None =>
      if paste_dontstealfocus e then (false, st)
      else
        match clipboardText e with
        | None => (true, st)
        | Some data =>
            let pasted := pastedData data in
            if len pasted <? 1 then (true, st)
            else (true, State (tree st) (windowSelection st) (Some pasted))
        end
  end.

(** The scan of [onKeyUp].  [errors] is the array of runs; while
    [error] is defined it is the last array of [errors], so that
    [error.push(v)] extends that array in place. *)
Record scan : Type := Scan {
  error : bool;
  errors : list (list nat)
}.

Definition push_last (errors : list (list nat)) (v : nat)
  : list (list nat) :=
  match rev errors with
  | [] => []
  | e :: before => rev before ++ [e ++ [v]]
  end.

(** [letter !== originalLetter] at [index]; an index past the end of the
    target reads [undefined], which differs from every letter. *)
Definition differs (contentToCopy text : jsstring) (index : nat) : bool :=
  match text !! index, contentToCopy !! index with
  | Some letter, Some originalLetter => negb (char_eqb letter originalLetter)
  | None, None => false
  | _, _ => true
  end.

Definition onKeyUp_step (contentToCopy text : jsstring) (s : scan)
    (index : nat) : scan :=
  if differs contentToCopy text index then
    if error s then s else Scan true (errors s ++ [[index]])
  else
    if error s then Scan false (push_last (errors s) index) else s.

(** The runs [onKeyUp] computes for the typed text [text] (the
    [innerText] of the writer) against the target. *)
Definition onKeyUp_errors (contentToCopy text : jsstring)
  : list (list nat) :=
  let s := fold_left (onKeyUp_step contentToCopy text)
             (seq 0 (length text)) (Scan false []) in
  if error s then push_last (errors s) (length text) else errors s.

(** [Array.from(text)] iterates the string by code points: a high
    surrogate followed by a low surrogate is one element of two code
    units, every other code unit is an element of its own. *)
Definition isHighSurrogate (c : char) : bool :=
  ((55296 <=? c) && (c <=? 56319))%N.

Definition isLowSurrogate (c : char) : bool :=
  ((56320 <=? c) && (c <=? 57343))%N.

Fixpoint codePoints (text : jsstring) : list jsstring :=
  match text with
  | [] => []
  | x :: rest =>
      match rest with
      | y :: rest' =>
          if isHighSurrogate x && isLowSurrogate y
          then [x; y] :: codePoints rest'
          else [x] :: codePoints rest
      | [] => [[x]]
      end
  end.

(** The array [letters]: an element is a string, or [None] where the
    array has a hole (it reads [undefined]). *)
Definition letter_at (letters : list (option jsstring)) (k : nat)
  : option jsstring :=
  match letters !! k with
  | Some (Some v) => Some v
  | _ => None
  end.

(** [letters[k] = v]: past the end the array grows, leaving holes. *)
Definition array_set (letters : list (option jsstring)) (k : nat)
    (v : jsstring) : list (option jsstring) :=
  if (k <? length letters)%nat then <[k := Some v]> letters
  else letters ++ replicate (k - length letters) None ++ [Some v].

(** A value inside a template literal. *)
Definition template (v : option jsstring) : jsstring :=
  match v with
  | Some s => s
  | None => js "undefined"
  end.

(** The callback of [errors.forEach]: [[start, end]] reads the first
    two elements of the run.  An [undefined] index, or the index [-1],
    names a property that is no element of the array, so the
    assignment leaves the elements as they are. *)
Definition onKeyUp_mark (letters : list (option jsstring)) (run : list nat)
  : list (option jsstring) :=
  match run with
  | [] => letters
  | start :: rest =>
      let letters :=
        array_set letters start
          (js "<span>" ++ template (letter_at letters start)) in
      match rest with
      | S last :: _ =>
          array_set letters last
            (default [] (letter_at letters last) ++ js "</span>")
      | _ => letters
      end
  end.

(** [letters.join('')]: a hole joins as the empty string. *)
Definition join (letters : list (option jsstring)) : jsstring :=
  concat (map (default []) letters).

(** The markup [onKeyUp] assigns to the [innerHTML] of the error layer,
    for the typed text [text]. *)
Definition onKeyUp_innerHTML (contentToCopy text : jsstring) : jsstring :=
  let errors := onKeyUp_errors contentToCopy text in
  let letters := map Some (codePoints text) in
  join (fold_left onKeyUp_mark errors letters).

(** [onClick]: the answer tells whether the default action was
    prevented.  Assigning [innerHTML] replaces the children of the
    writer by the parsed fragment; the handler is modelled where the
    fragment is plain text. *)
Definition onClick (contentToCopy : option jsstring) (writer : path)
    (target : element) (st : state) : option (result (bool * state)) :=
  match truthy contentToCopy with
  | None => Some (Returns (false, st))
  | Some text =>
      match node_at (tree st) writer with
      | Some _ =>
          if isWord target then
            match getWordStartPosition text target with
            | Throws => Some Throws
            | Returns position =>
                let textBefore := substring text 0 position in
                match parseFragment textBefore with
                | None => None
                | Some children =>
                    let st1 :=
                      State (update_at (tree st) writer
                               (fun _ => Element children))
                            (windowSelection st) (targetText st) in
                    Some (Returns (true, caretToEnd writer st1))
                end
            end
          else if isTruthy (dataset_editor target)
                  || isTruthy (dataset_dontstealfocus target)
          then Some (Returns (false, st))
          else Some (Returns (false, caretToEnd writer st))
      | None => Some (Returns (false, st))
      end
  end.

(** A keydown event. *)
Record keyEvent : Type := KeyEvent {
  key : jsstring;
  metaKey : bool;
  altKey : bool;
  ctrlKey : bool;
  key_dontstealfocus : bool
}.

Record settings : Type := Settings {
  autocorrect : bool;
  ignore_punctuation : bool
}.

(** How a keydown ends: the handler returns, having prevented the
    default action or not, or (the Enter key) it ends by calling
    [insertTextAtCursor(text)] in the state reached, the default action
    prevented. *)
Inductive keydown : Type :=
  | Handled (prevented : bool) (st : state)
  | InsertTextAtCursor (text : jsstring) (st : state)
  | Raises.

(** [onKeydown]; [innerText] is what [writerRef.current.innerText]
    reads, which depends on the layout. *)
Definition onKeydown (contentToCopy : option jsstring) (writer : path)
    (opts : settings) (innerText : jsstring) (e : keyEvent) (st : state)
  : keydown :=
  match truthy contentToCopy with
  | None => Handled false st
  | Some target =>
  if key_dontstealfocus e then Handled false st
  else if metaKey e || altKey e || ctrlKey e then Handled false st
  else
  match node_at (tree st) writer with
  | None => Handled false st
  | Some _ =>
  if str_eqb (key e) (js "Enter") then
    match windowSelection st with
    | None => Handled true st
    | Some None => Raises
    | Some (Some range) =>
        let currentNode :=
          if path_eqb (startContainer range) writer
          then lastChild (tree st) writer
          else Some (startContainer range) in
        match currentNode with
        | None => Handled true st
        | Some currentNode =>
            let fullText := innerText in
            let currentPosition :=
              getTextPosition (tree st) writer currentNode (startOffset range) in
            let corrected :=
              if autocorrect opts then
                let lastWord :=
                  slice fullText
                    (getPreviousSpace fullText (Some currentPosition))
                    (Some currentPosition) in
                if len (trim lastWord) >? 0
                then handleAutocorrect (key e) contentToCopy writer false st
                else Returns (false, st)
              else Returns (false, st) in
            match corrected with
            | Throws => Raises
            | Returns (_, st1) =>
                let nextChars :=
                  substring target currentPosition (currentPosition + 2) in
                if str_eqb nextChars [LF; LF]
                then InsertTextAtCursor [LF; LF] st1
                else InsertTextAtCursor [LF] st1
            end
        end
    end
  else
    let blocked :=
      if str_eqb (key e) [SPACE] then
        match textContent_at (tree st) writer with
        | [] => Returns true
        | _ :: _ => wouldCreateConsecutiveSpaces writer st
        end
      else Returns false in
    match blocked with
    | Throws => Raises
    | Returns true => Handled true st
    | Returns false =>
        let punctuated :=
          if ignore_punctuation opts
          then handleIgnorePunctuation (key e) contentToCopy writer st
          else Returns (false, st) in
        match punctuated with
        | Throws => Raises
        | Returns (true, st1) => Handled true st1
        | Returns (false, st1) =>
            if autocorrect opts && str_eqb (key e) [SPACE] then
              match handleAutocorrect (key e) contentToCopy writer true st1 with
              | Throws => Raises
              | Returns (true, st2) => Handled true st2
              | Returns (false, st2) => Handled false st2
              end
            else Handled false st1
        end
    end
  end
  end.

End Editor.

Import Editor.

(* ================================================================== *)
(** * Predicates of the statements *)
(* ================================================================== *)

(** A run as [onKeyUp] stores it: the array [[start, end]]. *)
Definition run_array (r : nat * nat) : list nat := [fst r; snd r].

(** [[s, e)] is a maximal run of indices of [text] at which the typed
    letter differs from the target's. *)
Record maximal_run (contentToCopy text : jsstring) (r : nat * nat) : Prop := {
  run_bounds : (0 <= fst r < snd r)%nat /\ (snd r <= length text)%nat;
  run_differs : forall i, (fst r <= i < snd r)%nat ->
                          text !! i <> contentToCopy !! i;
  run_left : fst r = 0%nat \/ text !! (fst r - 1)%nat = contentToCopy !! (fst r - 1)%nat;
  run_right : snd r = length text \/ text !! snd r = contentToCopy !! snd r
}.

(** Two runs in this order are apart: the first ends before the second
    starts, and the index at which it ends is one where the texts
    agree. *)
Definition apart (contentToCopy text : jsstring) (r1 r2 : nat * nat) : Prop :=
  (snd r1 < fst r2)%nat /\ text !! snd r1 = contentToCopy !! snd r1.

(** The state of the scan of [onKeyUp] once the indices below [k] have
    been read. *)
Definition scan_upto (contentToCopy text : jsstring) (k : nat) : scan :=
  fold_left (onKeyUp_step contentToCopy text) (seq 0 k) (Scan false []).

(** A run that the scan has closed before index [k]: it is closed by the
    agreement of the two texts at its end. *)
Definition closed_run (contentToCopy text : jsstring) (k : nat)
    (r : nat * nat) : Prop :=
  (fst r < snd r < k)%nat /\
  (forall i, (fst r <= i < snd r)%nat -> text !! i <> contentToCopy !! i) /\
  (fst r = 0%nat \/ text !! (fst r - 1)%nat = contentToCopy !! (fst r - 1)%nat) /\
  text !! snd r = contentToCopy !! snd r.

(** The invariant of the scan at index [k]: the closed runs, and the
    start of the run still open, if any. *)
Inductive scan_inv (contentToCopy text : jsstring) (k : nat) : scan -> Prop :=
  | scan_idle (rs : list (nat * nat)) :
      Forall (closed_run contentToCopy text k) rs ->
      StronglySorted (apart contentToCopy text) rs ->
      k = 0%nat \/ text !! (k - 1)%nat = contentToCopy !! (k - 1)%nat ->
      scan_inv contentToCopy text k (Scan false (map run_array rs))
  | scan_open (rs : list (nat * nat)) (s0 : nat) :
      Forall (closed_run contentToCopy text k) rs ->
      StronglySorted (apart contentToCopy text) rs ->
      (s0 < k)%nat ->
      (forall i, (s0 <= i < k)%nat -> text !! i <> contentToCopy !! i) ->
      s0 = 0%nat \/ text !! (s0 - 1)%nat = contentToCopy !! (s0 - 1)%nat ->
      Forall (fun r => (snd r < s0)%nat) rs ->
      scan_inv contentToCopy text k (Scan true (map run_array rs ++ [[s0]])).

(** ** Paste normalisation in terms of runs

    The description of the normalisation speaks of runs of a character.
    [runs s] lists the maximal runs of equal code units of [s], each as
    the code unit and its number of repetitions. *)
Fixpoint runs (s : jsstring) : list (N * nat) :=
  match s with
  | [] => []
  | x :: s' =>
      match runs s' with
      | (y, n) :: rs =>
          if char_eqb x y then (y, S n) :: rs else (x, 1%nat) :: (y, n) :: rs
      | [] => [(x, 1%nat)]
      end
  end.

(** Every run of [c] replaced by [rep] when it has at least [least]
    elements, every other run left as it is. *)
Definition replace_runs_of (c : N) (least : nat) (rep : jsstring)
    (s : jsstring) : jsstring :=
  concat (map (fun r : N * nat =>
                 if char_eqb (fst r) c && (least <=? snd r)%nat then rep
                 else repeat (fst r) (snd r))
              (runs s)).

(** Every occurrence of [c] deleted. *)
Definition delete_all (c : N) (s : jsstring) : jsstring :=
  List.filter (fun x => negb (char_eqb x c)) s.

(** The normalisation as the code performs it, by runs: every run of
    spaces becomes one space, then tabs and carriage returns are deleted,
    then every run of one or more newlines becomes two newlines, then
    both ends are trimmed. *)
Definition normalize_by_runs (s : jsstring) : jsstring :=
  trim
    (replace_runs_of LF 1 [LF; LF]
       (delete_all CR
          (delete_all TAB
             (replace_runs_of SPACE 1 [SPACE] s)))).

(** The normalisation as the specification words it: only a run of two
    or more newlines becomes two newlines, a lone newline stays. *)
Definition normalize_as_specified (s : jsstring) : jsstring :=
  trim
    (replace_runs_of LF 2 [LF; LF]
       (delete_all CR
          (delete_all TAB
             (replace_runs_of SPACE 1 [SPACE] s)))).

(** The sum of the lengths of some pieces. *)
Definition sum_lengths (words : list jsstring) : Z :=
  fold_right (fun w acc => len w + acc) 0 words.

(** The node and the index that [handleIgnorePunctuation] addresses
    through the range of the selection. *)
Definition punctuationNode (writer : path) (st : state) (r : range) : path :=
  if path_eqb (startContainer r) writer
  then default writer (lastChild (tree st) writer)
  else startContainer r.

Definition punctuationIndex (writer : path) (st : state) (r : range) : Z :=
  if path_eqb (startContainer r) writer
  then match lastChild (tree st) writer with
       | Some l => len (textContent_at (tree st) l)
       | None => 0
       end
  else startOffset r.

(** The node that [handleAutocorrect] addresses through the range of the
    selection. *)
Definition autocorrectNode (writer : path) (st : state) (r : range)
  : option path :=
  if path_eqb (startContainer r) writer
  then lastChild (tree st) writer
  else Some (startContainer r).

(** What the scan of [onKeyUp] has covered at index [k]: every index
    below [k] at which the texts differ lies in a closed run or at or
    after the start of the open run. *)
Inductive scan_cover (contentToCopy text : jsstring) (k : nat) : scan -> Prop :=
  | cover_idle (rs : list (nat * nat)) :
      (forall i, (i < k)%nat -> text !! i <> contentToCopy !! i ->
                 exists r, In r rs /\ (fst r <= i < snd r)%nat) ->
      scan_cover contentToCopy text k (Scan false (map run_array rs))
  | cover_open (rs : list (nat * nat)) (s0 : nat) :
      (s0 < k)%nat ->
      (forall i, (i < k)%nat -> text !! i <> contentToCopy !! i ->
                 (exists r, In r rs /\ (fst r <= i < snd r)%nat)
                 \/ (s0 <= i)%nat) ->
      scan_cover contentToCopy text k (Scan true (map run_array rs ++ [[s0]])).

(** ** Shapes of a normalised text

    [isolated_from prev c s]: no two adjacent code units of [s] are both
    [c], where [prev] tells that the code unit before [s] is [c]. *)
Fixpoint isolated_from (prev : bool) (c : N) (s : jsstring) : Prop :=
  match s with
  | [] => True
  | x :: s' =>
      if char_eqb x c then prev = false /\ isolated_from true c s'
      else isolated_from false c s'
  end.

Definition isolated (c : N) (s : jsstring) : Prop := isolated_from false c s.

(** [paired_from k c s]: every maximal run of [c] in [s] has exactly two
    elements, where [k] counts the [c] that stand immediately before
    [s]. *)
Fixpoint paired_from (k : nat) (c : N) (s : jsstring) : Prop :=
  match s with
  | [] => k <> 1%nat
  | x :: s' =>
      if char_eqb x c then (k < 2)%nat /\ paired_from (S k) c s'
      else k <> 1%nat /\ paired_from 0 c s'
  end.

Definition paired (c : N) (s : jsstring) : Prop := paired_from 0 c s.

(** [s] neither starts nor ends with whitespace. *)
Definition trimmed (s : jsstring) : Prop :=
  match s with
  | [] => True
  | x :: _ => isWhiteSpace x = false
  end /\
  match rev s with
  | [] => True
  | y :: _ => isWhiteSpace y = false
  end.

(** The pieces [ps] alternate between text and whitespace and end with a
    text piece; [ws] tells that the first piece is a whitespace piece. *)
Fixpoint alternating (ws : bool) (ps : list jsstring) : Prop :=
  match ps with
  | [] => False
  | p :: ps' =>
      Forall (fun c => isWhiteSpace c = ws) p /\
      match ps' with
      | [] => ws = false
      | _ :: _ => alternating (negb ws) ps'
      end
  end.

(** A target made of paragraphs: the lines joined by two newlines, as the
    paste normalisation leaves them. *)
Definition join_paragraphs (lines : list jsstring) : jsstring :=
  match lines with
  | [] => []
  | l :: lines' => l ++ concat (map (fun x => LF :: LF :: x) lines')
  end.

(** ** The highlighted text

    A differing letter opens a highlight when the letter before it
    agrees with the target (or there is none), and closes one when the
    letter after it agrees (or there is none). *)
Definition opens (contentToCopy text : jsstring) (i : nat) : bool :=
  differs contentToCopy text i &&
  match i with
  | O => true
  | S j => negb (differs contentToCopy text j)
  end.

Definition closes (contentToCopy text : jsstring) (i : nat) : bool :=
  differs contentToCopy text i &&
  ((S i =? length text)%nat || negb (differs contentToCopy text (S i))).

(** A text whose letters carry the tags chosen by [P] and [Q]. *)
Definition tagged (P Q : nat -> bool) (text : jsstring)
  : list (option jsstring) :=
  imap (fun i c => Some ((if P i then js "<span>" else []) ++ [c] ++
                         (if Q i then js "</span>" else []))) text.

(** The text of [onKeyUp]'s markup, as described from the two texts. *)
Definition highlight (contentToCopy text : jsstring) : jsstring :=
  concat (imap (fun i c =>
                  (if opens contentToCopy text i then js "<span>" else []) ++
                  [c] ++
                  (if closes contentToCopy text i then js "</span>" else []))
               text).

(* ================================================================== *)
(** * The primitives on examples *)
(* ================================================================== *)

Example split_ws_keeps_separators :
  split_ws (js " one two  three ") =
  [js ""; js " "; js "one"; js " "; js "two"; js "  "; js "three"; js " ";
   js ""].
Proof. reflexivity. Qed.

Example split_ws_empty : split_ws (js "") = [js ""].
Proof. reflexivity. Qed.

Example split_char_lines :
  split_char LF (js "ab" ++ [LF; LF] ++ js "c") = [js "ab"; js ""; js "c"].
Proof. reflexivity. Qed.

Example lastIndexOf_examples :
  lastIndexOf (js "a b c") SPACE (Some 3) = 3 /\
  lastIndexOf (js "a b c") SPACE (Some 2) = 1 /\
  lastIndexOf (js "a b c") SPACE (Some 0) = -1 /\
  lastIndexOf (js "a b c") SPACE (Some (-4)) = -1 /\
  lastIndexOf (js "a b c") SPACE (Some 99) = 3 /\
  lastIndexOf (js "a b c") SPACE None = 3.
Proof. repeat split; reflexivity. Qed.

Example indexOf_examples :
  indexOf (js "a b c") SPACE 0 = 1 /\
  indexOf (js "a b c") SPACE 2 = 3 /\
  indexOf (js "a b c") SPACE 4 = -1 /\
  indexOf (js "a b c") SPACE (-7) = 1 /\
  indexOf (js "a b c") SPACE 99 = -1.
Proof. repeat split; reflexivity. Qed.

Example slice_examples :
  slice (js "abcdef") 2 None = js "cdef" /\
  slice (js "abcdef") (-2) None = js "ef" /\
  slice (js "abcdef") 0 (Some (-2)) = js "abcd" /\
  slice (js "abcdef") 4 (Some 2) = js "" /\
  substring (js "abcdef") 4 2 = js "cd".
Proof. repeat split; reflexivity. Qed.

Example replace_examples :
  replaceRuns SPACE [SPACE] (js "a   b  c d") = js "a b c d" /\
  replaceRuns LF [LF; LF] (js "a" ++ [LF] ++ js "b" ++ [LF; LF; LF] ++ js "c")
    = js "a" ++ [LF; LF] ++ js "b" ++ [LF; LF] ++ js "c" /\
  replaceEach TAB [] (js "a" ++ [TAB; TAB] ++ js "b") = js "ab" /\
  trim ([LF; SPACE] ++ js "a b" ++ [TAB; 160%N]) = js "a b".
Proof. repeat split; reflexivity. Qed.

Example parseInt_examples :
  parseInt (js "12") = Some 12 /\
  parseInt (js " -12px") = Some (-12) /\
  parseInt (js "x1") = None /\
  parseInt (js "") = None /\
  toString 120 = js "120" /\ toString 0 = js "0".
Proof. repeat split; reflexivity. Qed.

Example wrapWordsInSpans_example :
  wrapWordsInSpans (js "a b") =
  js "<span class=" ++ [QUOTE] ++ js "word" ++ [QUOTE] ++ js " data-offset="
  ++ [QUOTE] ++ js "0" ++ [QUOTE] ++ js ">a</span> <span class=" ++ [QUOTE]
  ++ js "word" ++ [QUOTE] ++ js " data-offset=" ++ [QUOTE] ++ js "2"
  ++ [QUOTE] ++ js ">b</span>".
Proof. reflexivity. Qed.

(** The punctuation scenario of the editor: with the target "a,b" and
    "a" typed, a punctuation key inserts the expected comma. *)
Example handleIgnorePunctuation_example :
  handleIgnorePunctuation (js ";") (Some (js "a,b")) []
    (State (Element [Text (js "a")]) (Some (Some (Range [0%nat] 1)))
       (Some (js "a,b")))
  = Returns (true,
             State (Element [Text (js "a,")]) (Some (Some (Range [0%nat] 2)))
               (Some (js "a,b"))).
Proof. reflexivity. Qed.

(* ================================================================== *)
(** * Basic facts *)
(* ================================================================== *)

Lemma char_eqb_eq (a b : char) : char_eqb a b = true <-> a = b.
Proof. unfold char_eqb. apply N.eqb_eq. Qed.

Lemma char_eqb_refl (a : char) : char_eqb a a = true.
Proof. by apply char_eqb_eq. Qed.

Lemma str_eqb_eq (a b : jsstring) : str_eqb a b = true <-> a = b.
Proof.
  revert b. induction a as [|x a IH]; intros [|y b]; simpl; try done.
  rewrite andb_true_iff, char_eqb_eq, IH. split.
  - by intros [-> ->].
  - by intros [= -> ->].
Qed.

Lemma path_eqb_eq (p q : path) : path_eqb p q = true <-> p = q.
Proof.
  revert q. induction p as [|i p IH]; intros [|j q]; simpl; try done.
  rewrite andb_true_iff, Nat.eqb_eq, IH. split.
  - by intros [-> ->].
  - by intros [= -> ->].
Qed.

Lemma path_eqb_refl (p : path) : path_eqb p p = true.
Proof. by apply path_eqb_eq. Qed.

Lemma path_eqb_neq (p q : path) : p <> q -> path_eqb p q = false.
Proof.
  intros Hne. destruct (path_eqb p q) eqn:E; [|done].
  by apply path_eqb_eq in E.
Qed.

(** ** Searching a code unit *)

Lemma index_of_Some (c : char) (s : jsstring) (i : nat) :
  index_of c s = Some i -> s !! i = Some c.
Proof.
  revert i. induction s as [|x s IH]; intros i; simpl; [done|].
  destruct (char_eqb x c) eqn:E.
  - intros [= <-]. simpl. f_equal. by apply char_eqb_eq.
  - destruct (index_of c s) as [k|]; simpl; [|done].
    intros [= <-]. simpl. by apply IH.
Qed.

Lemma last_index_of_Some (c : char) (s : jsstring) (i : nat) :
  last_index_of c s = Some i -> s !! i = Some c.
Proof.
  revert i. induction s as [|x s IH]; intros i; simpl; [done|].
  destruct (last_index_of c s) as [k|].
  - intros [= <-]. simpl. by apply IH.
  - destruct (char_eqb x c) eqn:E; [|done].
    intros [= <-]. simpl. f_equal. by apply char_eqb_eq.
Qed.

Lemma indexOf_range (s : jsstring) (c : char) (position : Z) :
  indexOf s c position = -1 \/ 0 <= indexOf s c position < len s.
Proof.
  unfold indexOf.
  destruct (index_of c (drop _ s)) as [k|] eqn:E; [right|by left].
  apply index_of_Some in E. rewrite lookup_drop in E.
  apply lookup_lt_Some in E. unfold len in *. lia.
Qed.

Lemma lastIndexOf_spec (s : jsstring) (c : char) (position : option Z) :
  lastIndexOf s c position = -1 \/
  exists k : nat, lastIndexOf s c position = Z.of_nat k /\ s !! k = Some c.
Proof.
  unfold lastIndexOf.
  destruct (last_index_of c (take _ s)) as [k|] eqn:E; [right|by left].
  exists k. split; [done|].
  apply last_index_of_Some in E.
  apply lookup_take_Some in E. tauto.
Qed.

Lemma getNextSpace_range (text : jsstring) (offset : Z) :
  0 <= getNextSpace text offset <= len text.
Proof.
  unfold getNextSpace. destruct text as [|x text]; [done|].
  destruct (indexOf_range (x :: text) SPACE offset) as [->|H]; simpl.
  - unfold len. lia.
  - destruct (Z.ltb_spec (indexOf (x :: text) SPACE offset) 0); lia.
Qed.

Lemma getPreviousSpace_spec (text : jsstring) (offset : option Z) :
  getPreviousSpace text offset = 0 \/
  (0 < getPreviousSpace text offset <= len text /\
   at_index text (getPreviousSpace text offset - 1) = Some SPACE).
Proof.
  unfold getPreviousSpace. destruct text as [|x text]; [by left|].
  destruct (lastIndexOf_spec (x :: text) SPACE offset) as [->|(k & -> & Hk)].
  - by left.
  - right. destruct (Z.ltb_spec (Z.of_nat k) 0); [lia|].
    pose proof (lookup_lt_Some _ _ _ Hk) as Hlt.
    split; [unfold len; lia|].
    unfold at_index. replace (Z.of_nat k + 1 - 1) with (Z.of_nat k) by lia.
    destruct (Z.ltb_spec (Z.of_nat k) 0); [lia|].
    by rewrite Nat2Z.id.
Qed.

(* ================================================================== *)
(** * Word boundaries *)
(* ================================================================== *)

(** C6.  For every string [t] and every offset [k], the composition
    [getPreviousSpace(t, getNextSpace(t, k))] has a value, which lies
    between 0 and the length of [t] and is either 0 or an index [p] such
    that [t[p-1]] is a space. *)
Theorem getPreviousSpace_getNextSpace_boundary (t : jsstring) (k : Z) :
  let p := getPreviousSpace t (Some (getNextSpace t k)) in
  0 <= p <= len t /\ (p = 0 \/ at_index t (p - 1) = Some SPACE).
Proof.
  intros p. subst p.
  destruct (getPreviousSpace_spec t (Some (getNextSpace t k))) as [->|[Hr Hs]].
  - split; [unfold len; lia|by left].
  - split; [lia|by right].
Qed.

(* ================================================================== *)
(** * The key-up scan *)
(* ================================================================== *)

Section KeyUp.

Variables contentToCopy text : list N.

Lemma differs_true (i : nat) :
  differs contentToCopy text i = true <-> text !! i <> contentToCopy !! i.
Proof.
  unfold differs.
  destruct (text !! i) as [a|], (contentToCopy !! i) as [b|]; try done.
  rewrite negb_true_iff. split.
  - intros E [= ->]. by rewrite char_eqb_refl in E.
  - intros Hne. destruct (char_eqb a b) eqn:E; [|done].
    apply char_eqb_eq in E. by subst.
Qed.

Lemma differs_false (i : nat) :
  differs contentToCopy text i = false <-> text !! i = contentToCopy !! i.
Proof.
  destruct (differs contentToCopy text i) eqn:E.
  - apply differs_true in E. split; [done|]. intros; contradiction.
  - split; [|done]. intros _.
    destruct (decide (text !! i = contentToCopy !! i)) as [|Hne]; [done|].
    apply differs_true in Hne. congruence.
Qed.

Lemma scan_upto_S (k : nat) :
  scan_upto contentToCopy text (S k) =
  onKeyUp_step contentToCopy text (scan_upto contentToCopy text k) k.
Proof. unfold scan_upto. by rewrite seq_S, fold_left_app. Qed.

Lemma push_last_snoc (l : list (list nat)) (e : list nat) (v : nat) :
  push_last (l ++ [e]) v = l ++ [e ++ [v]].
Proof. unfold push_last. rewrite rev_app_distr. simpl. by rewrite rev_involutive. Qed.

Lemma StronglySorted_snoc {A} (R : A -> A -> Prop) (l : list A) (x : A) :
  StronglySorted R l -> Forall (fun y => R y x) l ->
  StronglySorted R (l ++ [x]).
Proof.
  induction 1 as [|a l Hs IH Ha]; intros Hx; simpl.
  - repeat constructor.
  - inversion_clear Hx as [|? ? Hax Hx']. constructor; [by apply IH|].
    apply Forall_app. split; [done|]. by constructor.
Qed.

Lemma closed_run_mono (k : nat) (r : nat * nat) :
  closed_run contentToCopy text k r -> closed_run contentToCopy text (S k) r.
Proof. unfold closed_run. intros (? & ? & ? & ?). repeat split; try done; lia. Qed.

Lemma scan_inv_step (k : nat) (s : scan) :
  scan_inv contentToCopy text k s ->
  scan_inv contentToCopy text (S k) (onKeyUp_step contentToCopy text s k).
Proof.
  intros Hinv. unfold onKeyUp_step.
  destruct (differs contentToCopy text k) eqn:Hd.
  - apply differs_true in Hd.
    destruct Hinv as [rs Hrs Hsort Hprev | rs s0 Hrs Hsort Hlt Hall Hleft Hbefore]; simpl.
    + apply scan_open; try done.
      * eapply List.Forall_impl; [|exact Hrs]. apply closed_run_mono.
      * lia.
      * intros i Hi. by replace i with k by lia.
      * eapply List.Forall_impl; [|exact Hrs]. intros r (? & _). simpl. lia.
    + apply scan_open; try done.
      * eapply List.Forall_impl; [|exact Hrs]. apply closed_run_mono.
      * lia.
      * intros i Hi. destruct (decide (i = k)) as [->|]; [done|].
        apply Hall. lia.
  - apply differs_false in Hd.
    destruct Hinv as [rs Hrs Hsort Hprev | rs s0 Hrs Hsort Hlt Hall Hleft Hbefore]; simpl.
    + apply scan_idle; try done.
      * eapply List.Forall_impl; [|exact Hrs]. apply closed_run_mono.
      * right. by replace (S k - 1)%nat with k by lia.
    + rewrite push_last_snoc.
      change ([s0] ++ [k]) with (run_array (s0, k)).
      change [run_array (s0, k)] with (map run_array [(s0, k)]).
      rewrite <- map_app. apply scan_idle.
      * apply Forall_app. split.
        -- eapply List.Forall_impl; [|exact Hrs]. apply closed_run_mono.
        -- constructor; [|done]. unfold closed_run; simpl.
           repeat split; try done; lia.
      * apply StronglySorted_snoc; [done|].
        apply Forall_forall. intros r Hr.
        rewrite Forall_forall in Hrs, Hbefore.
        destruct (Hrs r Hr) as (_ & _ & _ & Hagree).
        split; [by apply Hbefore|done].
      * right. by replace (S k - 1)%nat with k by lia.
Qed.

Lemma scan_inv_upto (k : nat) :
  scan_inv contentToCopy text k (scan_upto contentToCopy text k).
Proof.
  induction k as [|k IH].
  - apply (scan_idle _ _ 0 []); [constructor|constructor|by left].
  - rewrite scan_upto_S. by apply scan_inv_step.
Qed.

(** The runs the scan returns, as pairs, with what the invariant tells
    of them at the end of the text. *)
Lemma onKeyUp_errors_runs :
  exists rs : list (nat * nat),
    onKeyUp_errors contentToCopy text = map run_array rs /\
    Forall (maximal_run contentToCopy text) rs /\
    StronglySorted (apart contentToCopy text) rs.
Proof.
  unfold onKeyUp_errors. fold (scan_upto contentToCopy text (length text)).
  destruct (scan_inv_upto (length text))
    as [rs Hrs Hsort Hprev | rs s0 Hrs Hsort Hlt Hall Hleft Hbefore]; simpl.
  - exists rs. repeat split; [|done].
    eapply List.Forall_impl; [|exact Hrs]. intros r (Hb & Hd & Hl & Hr).
    split; [lia|done|done|by right].
  - exists (rs ++ [(s0, length text)]). rewrite push_last_snoc, map_app.
    repeat split.
    + apply Forall_app. split.
      * eapply List.Forall_impl; [|exact Hrs]. intros r (Hb & Hd & Hl & Hr).
        split; [lia|done|done|by right].
      * constructor; [|done]. split; simpl; [lia|done|done|by left].
    + apply StronglySorted_snoc; [done|].
      apply Forall_forall. intros r Hr.
      rewrite Forall_forall in Hrs, Hbefore.
      destruct (Hrs r Hr) as (_ & _ & _ & Hagree).
      split; [by apply Hbefore|done].
Qed.

Lemma scan_upto_agree (k : nat) :
  (forall i, (i < k)%nat -> text !! i = contentToCopy !! i) ->
  scan_upto contentToCopy text k = Scan false [].
Proof.
  induction k as [|k IH]; intros Hall; [done|].
  rewrite scan_upto_S, IH by (intros; apply Hall; lia).
  unfold onKeyUp_step.
  by rewrite (proj2 (differs_false k)) by (apply Hall; lia).
Qed.

Lemma scan_upto_differ (k : nat) :
  (forall i, (i < S k)%nat -> text !! i <> contentToCopy !! i) ->
  scan_upto contentToCopy text (S k) = Scan true [[0%nat]].
Proof.
  induction k as [|k IH]; intros Hall.
  - rewrite scan_upto_S. unfold onKeyUp_step. simpl.
    by rewrite (proj2 (differs_true 0)) by (apply Hall; lia).
  - rewrite scan_upto_S, IH by (intros; apply Hall; lia).
    unfold onKeyUp_step.
    by rewrite (proj2 (differs_true (S k))) by (apply Hall; lia).
Qed.

End KeyUp.

(** C4.  The error-run computation of the key-up handler returns, for
    every target and every typed text, a list of completed runs
    [[start, end]].  When the typed text agrees with the target at every
    index of the typed text there is no run; when the typed text has
    length [n >= 1] and differs from the target at every index there is
    exactly the run [[0, n]]. *)
Theorem onKeyUp_errors_total_agree_differ (contentToCopy text : list N) :
  (exists rs : list (nat * nat),
     onKeyUp_errors contentToCopy text = map run_array rs) /\
  ((forall i, (i < length text)%nat -> text !! i = contentToCopy !! i) ->
   onKeyUp_errors contentToCopy text = []) /\
  ((1 <= length text)%nat ->
   (forall i, (i < length text)%nat -> text !! i <> contentToCopy !! i) ->
   onKeyUp_errors contentToCopy text = [[0%nat; length text]]).
Proof.
  split; [|split].
  - destruct (onKeyUp_errors_runs contentToCopy text) as (rs & Hrs & _).
    by exists rs.
  - intros Hall. unfold onKeyUp_errors.
    fold (scan_upto contentToCopy text (length text)).
    by rewrite scan_upto_agree.
  - intros Hn Hall. unfold onKeyUp_errors.
    fold (scan_upto contentToCopy text (length text)).
    destruct (length text) as [|k] eqn:E; [lia|].
    by rewrite scan_upto_differ.
Qed.

Lemma onKeyUp_errors_total_agree_differ_witness :
  onKeyUp_errors (js "copy") (js "cop") = [] /\
  onKeyUp_errors (js "copy") (js "xyz") = [[0%nat; 3%nat]].
Proof.
  split.
  - apply (onKeyUp_errors_total_agree_differ (js "copy") (js "cop")).
    intros i Hi. simpl in Hi.
    do 3 (destruct i as [|i]; [reflexivity|]). lia.
  - apply (onKeyUp_errors_total_agree_differ (js "copy") (js "xyz")).
    + simpl. lia.
    + intros i Hi. simpl in Hi.
      do 3 (destruct i as [|i]; [discriminate|]). lia.
Defined.

(** C5.  For every target and every typed text, the runs of the key-up
    scan are half-open intervals [[start, end)] with
    [0 <= start < end <= length of the typed text], each a maximal run of
    indices at which the typed text differs from the target; they are
    listed in increasing order and any two of them are apart: the earlier
    one ends strictly before the later one starts, at an index where the
    two texts agree. *)
Theorem onKeyUp_errors_maximal_sorted (contentToCopy text : list N) :
  exists rs : list (nat * nat),
    onKeyUp_errors contentToCopy text = map run_array rs /\
    Forall (maximal_run contentToCopy text) rs /\
    StronglySorted (apart contentToCopy text) rs.
Proof. apply onKeyUp_errors_runs. Qed.

(* ================================================================== *)
(** * The document tree *)
(* ================================================================== *)

(** Induction on trees, with the hypothesis on every child. *)
Lemma node_ind_children (P : node -> Prop) :
  (forall data, P (Text data)) ->
  (forall children, Forall P children -> P (Element children)) ->
  forall n, P n.
Proof.
  intros HText HElement. fix IH 1. intros [data|children].
  - apply HText.
  - apply HElement. induction children as [|c children IHc]; constructor.
    + apply IH.
    + apply IHc.
Qed.

Lemma node_at_app (doc : node) (p q : list nat) :
  node_at doc (p ++ q) =
  match node_at doc p with
  | Some n => node_at n q
  | None => None
  end.
Proof.
  revert doc. induction p as [|i p IH]; intros doc; simpl; [done|].
  destruct (childNodes doc !! i); [apply IH|done].
Qed.

Lemma node_at_update_app (doc n : node) (p q : list nat) (f : node -> node) :
  node_at doc p = Some n ->
  node_at (update_at doc (p ++ q) f) p = Some (update_at n q f).
Proof.
  revert doc. induction p as [|i p IH]; intros doc; simpl.
  - by intros [= ->].
  - destruct doc as [data|children]; simpl; [done|].
    destruct (children !! i) as [c|] eqn:E; [|done].
    intros Hc. rewrite list_lookup_alter, E. simpl.
    destruct (decide (i = i)); [|done]. by apply IH.
Qed.

Lemma node_at_update_same (doc n : node) (p : list nat) (f : node -> node) :
  node_at doc p = Some n -> node_at (update_at doc p f) p = Some (f n).
Proof.
  intros Hn. pose proof (node_at_update_app doc n p [] f Hn) as H.
  rewrite app_nil_r in H. exact H.
Qed.

Lemma snoc_neq (p : list nat) (i : nat) : p ++ [i] <> p.
Proof. intros E. apply (f_equal length) in E. rewrite length_app in E. simpl in E. lia. Qed.

(** ** Text nodes in document order *)

Lemma text_nodes_Element (children : list node) :
  concat (map snd (text_nodes (Element children))) =
  concat (map (fun c => concat (map snd (text_nodes c))) children).
Proof.
  simpl. generalize 0%nat.
  induction children as [|c children IH]; intros i; [done|].
  rewrite map_app, concat_app, map_map. simpl.
  by rewrite IH.
Qed.

Lemma text_nodes_textContent (n : node) :
  concat (map snd (text_nodes n)) = textContent n.
Proof.
  induction n as [data|children IH] using node_ind_children.
  - simpl. by rewrite app_nil_r.
  - rewrite text_nodes_Element. simpl. f_equal.
    induction IH as [|c children Hc _ IHcs]; simpl; [done|].
    by rewrite Hc, IHcs.
Qed.

Lemma treeWalker_text_data (doc : node) (root : list nat) (children : list node) :
  node_at doc root = Some (Element children) ->
  concat (map snd (treeWalker_text doc root)) = textContent (Element children).
Proof.
  intros H. unfold treeWalker_text. rewrite H, map_map.
  apply (text_nodes_textContent (Element children)).
Qed.

(* ================================================================== *)
(** * The position mapper *)
(* ================================================================== *)

Lemma getTextPosition_loop_miss (nodes : list (list nat * list N))
    (currentNode : list nat) (offset position : Z) :
  ~ In currentNode (map fst nodes) ->
  getTextPosition_loop nodes currentNode offset position =
  position + len (concat (map snd nodes)).
Proof.
  revert position. induction nodes as [|[p d] nodes IH]; intros position Hnot; simpl.
  - unfold len. simpl. lia.
  - simpl in Hnot. rewrite path_eqb_neq by tauto.
    rewrite IH by tauto. unfold len. rewrite length_app. lia.
Qed.

(** C1, as the code has it.  When [currentNode] is not among the text
    descendants of [editor], [getTextPosition] returns the total number
    of code units of those text descendants, which is the length of the
    text content of [editor] when [editor] is an element; the result is 0
    only when that text is empty. *)
Theorem getTextPosition_not_found (doc : node) (editor currentNode : list nat)
    (offset : Z) :
  ~ In currentNode (map fst (treeWalker_text doc editor)) ->
  getTextPosition doc editor currentNode offset =
    len (concat (map snd (treeWalker_text doc editor))) /\
  (forall children, node_at doc editor = Some (Element children) ->
     getTextPosition doc editor currentNode offset =
       len (textContent (Element children))) /\
  (getTextPosition doc editor currentNode offset = 0 <->
   concat (map snd (treeWalker_text doc editor)) = []).
Proof.
  intros Hnot. unfold getTextPosition.
  rewrite getTextPosition_loop_miss by done.
  split; [lia|]. split.
  - intros children H. by rewrite (treeWalker_text_data _ _ _ H).
  - unfold len. destruct (concat _); simpl; split; try done; lia.
Qed.

Lemma getTextPosition_not_found_witness :
  getTextPosition (Element [Text (js "ab"); Element []; Text (js "c")])
    [] [1%nat] 0 = 3.
Proof.
  apply (getTextPosition_not_found
           (Element [Text (js "ab"); Element []; Text (js "c")]) [] [1%nat] 0).
  simpl. intros [H|[H|[]]]; discriminate H.
Defined.

(** C1, as the specification states it, fails: in a writer holding the
    text "ab" followed by an empty element (a line break), the element is
    no text node, and its position is 2, not 0. *)
Lemma getTextPosition_not_found_nonzero :
  let doc := Element [Text (js "ab"); Element []] in
  ~ In [1%nat] (map fst (treeWalker_text doc [])) /\
  getTextPosition doc [] [1%nat] 0 = 2 /\
  getTextPosition doc [] [1%nat] 0 <> 0.
Proof.
  simpl. split; [|split].
  - intros [H|[]]. discriminate H.
  - reflexivity.
  - discriminate.
Qed.

(* ================================================================== *)
(** * Paste normalisation *)
(* ================================================================== *)

Lemma runs_nil (s : list N) : runs s = [] -> s = [].
Proof.
  destruct s as [|x s]; [done|]. simpl.
  destruct (runs s) as [|[y n] rs]; [done|].
  by destruct (char_eqb x y).
Qed.

Lemma runs_head_positive (s : list N) (x : N) (rs : list (N * nat)) :
  runs s = (x, 0%nat) :: rs -> False.
Proof.
  destruct s as [|z s]; [done|]. simpl.
  destruct (runs s) as [|[w m] ws]; [done|].
  by destruct (char_eqb z w).
Qed.

Lemma replaceRuns_from_runs (c : N) (rep s : list N) (inrun : bool) :
  replaceRuns_from inrun c rep s =
  match runs s with
  | [] => []
  | (x, n) :: rs =>
      (if char_eqb x c then (if inrun then [] else rep) else repeat x n)
      ++ concat (map (fun r : N * nat =>
                        if char_eqb (fst r) c && (1 <=? snd r)%nat then rep
                        else repeat (fst r) (snd r)) rs)
  end.
Proof.
  revert inrun. induction s as [|x s IH]; intros inrun; [done|].
  simpl. destruct (runs s) as [|[y n] rs] eqn:E.
  - apply runs_nil in E. subst s. simpl.
    destruct (char_eqb x c); by rewrite ?app_nil_r.
  - destruct (char_eqb x c) eqn:Exc.
    + rewrite IH. apply char_eqb_eq in Exc. subst x.
      destruct (char_eqb c y) eqn:Ecy.
      * apply char_eqb_eq in Ecy. subst y. by rewrite char_eqb_refl.
      * rewrite char_eqb_refl.
        assert (char_eqb y c = false) as Eyc.
        { destruct (char_eqb y c) eqn:E'; [|done].
          apply char_eqb_eq in E'. subst y. by rewrite char_eqb_refl in Ecy. }
        rewrite Eyc. simpl. rewrite Eyc. simpl. done.
    + rewrite IH. destruct (char_eqb x y) eqn:Exy.
      * apply char_eqb_eq in Exy. subst y. by rewrite Exc.
      * rewrite Exc. simpl.
        destruct (char_eqb y c) eqn:Eyc; simpl; [|done].
        destruct n as [|n]; [|done].
        by apply runs_head_positive in E.
Qed.

Lemma replaceRuns_by_runs (c : N) (rep s : list N) :
  replaceRuns c rep s = replace_runs_of c 1 rep s.
Proof.
  unfold replaceRuns, replace_runs_of. rewrite replaceRuns_from_runs.
  destruct (runs s) as [|[x n] rs] eqn:E; [done|]. simpl.
  destruct (char_eqb x c); simpl; [|done].
  destruct n as [|n]; [|done].
  by apply runs_head_positive in E.
Qed.

Lemma replaceEach_delete (c : N) (s : list N) :
  replaceEach c [] s = delete_all c s.
Proof.
  induction s as [|x s IH]; [done|]. simpl.
  destruct (char_eqb x c); simpl; by rewrite IH.
Qed.

Lemma pastedData_by_runs (data : list N) :
  pastedData data = normalize_by_runs data.
Proof.
  unfold pastedData, normalize_by_runs.
  by rewrite !replaceRuns_by_runs, !replaceEach_delete.
Qed.




(** C7 fails on the code: a tab between two spaces.  The spaces are
    collapsed before the tab is deleted, so the first normalisation of
    "a", space, tab, space, "b" leaves two adjacent spaces, which a second
    normalisation collapses.  The target "a  b" so obtained cannot be
    typed: once "a " stands in the writer, the keydown handler drops
    every further space. *)
Theorem pastedData_not_idempotent :
  let s := js "a " ++ [TAB] ++ js " b" in
  pastedData s = js "a  b" /\
  pastedData (pastedData s) = js "a b" /\
  pastedData (pastedData s) <> pastedData s /\
  (let st := State (Element [Text (js "a ")])
               (Some (Some (Range [0%nat] 2))) (Some (pastedData s)) in
   forall opts : settings,
     onKeydown (Some (pastedData s)) [] opts (js "a ")
       (KeyEvent [SPACE] false false false false) st = Handled true st).
Proof.
  simpl. split; [reflexivity|split; [reflexivity|split; [discriminate|]]].
  intros opts. reflexivity.
Qed.

(* ================================================================== *)
(** * Word segmentation and click-to-jump *)
(* ================================================================== *)

Lemma concat_cons_head (x : N) (pieces : list (list N)) :
  concat (cons_head x pieces) = x :: concat pieces.
Proof. by destruct pieces. Qed.

Lemma concat_split_ws_from (inws : bool) (s : list N) :
  concat (split_ws_from inws s) = s.
Proof.
  revert inws. induction s as [|x s IH]; intros inws; simpl.
  - by destruct inws.
  - destruct (Bool.eqb (isWhiteSpace x) inws); simpl;
      by rewrite concat_cons_head, IH.
Qed.

Lemma sum_lengths_concat (words : list (list N)) :
  sum_lengths words = len (concat words).
Proof.
  unfold sum_lengths, len. induction words as [|w words IH]; simpl; [done|].
  rewrite IH, length_app. lia.
Qed.

Lemma getWordStartPosition_loop_sum (words : list (list N)) (count : nat)
    (position : Z) :
  (count <= length words)%nat ->
  getWordStartPosition_loop words count position =
  Returns (position + sum_lengths (take count words)).
Proof.
  revert words position. induction count as [|count IH]; intros words position Hle.
  - unfold sum_lengths. simpl. f_equal. lia.
  - destruct words as [|w words]; simpl in *; [lia|].
    rewrite IH by lia. unfold sum_lengths. simpl. f_equal. lia.
Qed.

Lemma substring_middle (before token after : list N) :
  substring (before ++ token ++ after) (len before) (len before + len token)
  = token.
Proof.
  unfold substring, clamp, len. rewrite !length_app.
  replace (Z.min (Z.max (Z.of_nat (length before)) 0) _)
    with (Z.of_nat (length before)) by lia.
  replace (Z.min (Z.max (Z.of_nat (length before) + Z.of_nat (length token)) 0) _)
    with (Z.of_nat (length before + length token)) by lia.
  rewrite Z.min_l, Z.max_r by lia.
  replace (Z.to_nat (Z.of_nat (length before + length token)
                     - Z.of_nat (length before))) with (length token) by lia.
  rewrite Nat2Z.id, drop_app_length. apply take_app_length.
Qed.

(** ** Printing and reading an index *)

Lemma parseDigits_digits (d : Decimal.uint) (acc : nat) (seen : bool) :
  parseDigits (digits d) (Z.of_nat acc) seen =
  (Z.of_nat (Nat.of_uint_acc d acc),
   match d with Decimal.Nil => seen | _ => true end).
Proof.
  revert acc seen.
  induction d as [|d IH|d IH|d IH|d IH|d IH|d IH|d IH|d IH|d IH|d IH];
    intros acc seen; [done|..];
    cbn [digits parseDigits Nat.of_uint_acc];
    match goal with
    | |- context [parseDigits _ ?v true] =>
        match goal with
        | |- context [Nat.of_uint_acc _ ?a] =>
            replace v with (Z.of_nat a)
              by (rewrite Nat.tail_mul_spec; cbn; lia)
        end
    end;
    rewrite IH; by destruct d.
Qed.

Lemma to_uint_not_Nil (n : nat) : Nat.to_uint n <> Decimal.Nil.
Proof.
  intros E. pose proof (Unsigned.of_to n) as H. rewrite E in H.
  cbn in H. subst n. discriminate E.
Qed.

Lemma parseInt_toString (index : nat) :
  parseInt (toString index) = Some (Z.of_nat index).
Proof.
  unfold toString.
  pose proof (Unsigned.of_to index) as Hround.
  pose proof (to_uint_not_Nil index) as Hnil.
  pose proof (parseDigits_digits (Nat.to_uint index) 0 false) as Hp.
  fold (Nat.of_uint (Nat.to_uint index)) in Hp. rewrite Hround in Hp.
  destruct (Nat.to_uint index) as [|d|d|d|d|d|d|d|d|d|d]; [done|..];
    cbn [digits] in *; change (Z.of_nat 0) with 0 in Hp;
    match goal with
    | |- parseInt (?c :: ?r) = _ =>
        change (parseInt (c :: r))
          with (match parseDigits (c :: r) 0 false with
                | (v, true) => Some (1 * v)
                | (_, false) => None
                end)
    end;
    rewrite Hp; f_equal; lia.
Qed.

Lemma toString_not_empty (index : nat) : toString index <> [].
Proof.
  intros E. pose proof (parseInt_toString index) as H.
  rewrite E in H. discriminate H.
Qed.

Lemma getWordStartPosition_wordSpan (text : list N) (index : nat) :
  (index <= length (split_ws text))%nat ->
  getWordStartPosition text (wordSpan index) =
  Returns (sum_lengths (take index (split_ws text))).
Proof.
  intros Hle. unfold getWordStartPosition, wordSpan. simpl dataset_offset.
  destruct (toString index) as [|c o] eqn:E.
  - by apply toString_not_empty in E.
  - rewrite <- E, parseInt_toString, Nat2Z.id.
    by rewrite getWordStartPosition_loop_sum by done.
Qed.

Lemma scenario_word_start :
  getWordStartPosition (js "one two three four") (wordSpan 4) = Returns 8.
Proof. reflexivity. Qed.

(** C8.  For every target [t], the pieces of the split on whitespace
    runs, separators kept, concatenate to [t]; for the rendered word
    element that carries the index [i] of a piece, [getWordStartPosition]
    returns the sum of the lengths of the first [i] pieces, and piece [i]
    is what [t] holds from that offset on.  Clicking the rendered third
    word of "one two three four" (the piece of index 4) replaces the
    content of the writer by the single text "one two " and puts the
    caret at the end of the writer. *)
Theorem getWordStartPosition_piece_start :
  (forall (t : list N) (i : nat) (piece : list N),
     split_ws t !! i = Some piece ->
     let position := sum_lengths (take i (split_ws t)) in
     concat (split_ws t) = t /\
     getWordStartPosition t (wordSpan i) = Returns position /\
     substring t position (position + len piece) = piece) /\
  (forall (st : state) (writer : list nat) (w : node) (sel : option range),
     node_at (tree st) writer = Some w ->
     windowSelection st = Some sel ->
     let tree' :=
       update_at (tree st) writer (fun _ => Element [Text (js "one two ")]) in
     onClick (Some (js "one two three four")) writer (wordSpan 4) st =
       Some (Returns (true,
               State tree' (Some (Some (Range writer 1))) (targetText st))) /\
     node_at tree' writer = Some (Element [Text (js "one two ")]) /\
     textContent_at tree' writer = js "one two ").
Proof.
  split.
  - intros t i piece Hi position. subst position.
    pose proof (concat_split_ws_from false t) as Hcat.
    fold (split_ws t) in Hcat.
    split; [done|]. split.
    + apply getWordStartPosition_wordSpan.
      apply lookup_lt_Some in Hi. lia.
    + rewrite sum_lengths_concat.
      rewrite <- Hcat at 1.
      rewrite <- (take_drop_middle _ _ _ Hi) at 1.
      rewrite concat_app. simpl concat.
      apply substring_middle.
  - intros st writer w sel Hw Hsel tree'.
    assert (node_at tree' writer = Some (Element [Text (js "one two ")])) as Hnew.
    { subst tree'. by rewrite (node_at_update_same _ _ _ _ Hw). }
    split; [|split].
    + unfold onClick.
      change (truthy (Some (js "one two three four")))
        with (Some (js "one two three four")).
      cbv beta iota. rewrite Hw.
      change (isWord (wordSpan 4)) with true. cbv beta iota.
      rewrite scenario_word_start.
      change (substring (js "one two three four") 0 8) with (js "one two ").
      change (parseFragment (js "one two "))
        with (Some [Text (js "one two ")]).
      cbv beta iota zeta. fold tree'.
      unfold caretToEnd. cbn [windowSelection tree targetText].
      by rewrite Hsel, Hnew.
    + done.
    + unfold textContent_at. by rewrite Hnew.
Qed.

Lemma getWordStartPosition_piece_start_witness :
  getWordStartPosition (js "a  bc d") (wordSpan 2) = Returns 3 /\
  onClick (Some (js "one two three four")) [0%nat] (wordSpan 4)
    (State (Element [Element [Text (js "one twa")]]) (Some None)
       (Some (js "one two three four"))) =
  Some (Returns (true,
          State (Element [Element [Text (js "one two ")]])
            (Some (Some (Range [0%nat] 1)))
            (Some (js "one two three four")))).
Proof.
  split.
  - apply (proj1 getWordStartPosition_piece_start (js "a  bc d") 2%nat (js "bc")).
    reflexivity.
  - apply (proj2 getWordStartPosition_piece_start
             (State (Element [Element [Text (js "one twa")]]) (Some None)
                (Some (js "one two three four")))
             [0%nat] (Element [Text (js "one twa")]) None);
      reflexivity.
Defined.

(* ================================================================== *)
(** * Slices *)
(* ================================================================== *)

Lemma slice_prefix (s : list N) (k : Z) :
  0 <= k <= len s -> slice s 0 (Some k) = take (Z.to_nat k) s.
Proof.
  intros Hk. unfold slice, relative, len in *.
  destruct (Z.ltb_spec 0 0); [lia|].
  destruct (Z.ltb_spec k 0); [lia|].
  rewrite Z.min_l by lia. rewrite Z.min_l by lia.
  rewrite Z.sub_0_r. done.
Qed.

Lemma slice_suffix (s : list N) (k : Z) :
  0 <= k <= len s -> slice s k None = drop (Z.to_nat k) s.
Proof.
  intros Hk. unfold slice, relative, len in *.
  destruct (Z.ltb_spec k 0); [lia|].
  rewrite Z.min_l by lia.
  apply take_ge. rewrite length_drop. lia.
Qed.

Lemma len_app (a b : list N) : len (a ++ b) = len a + len b.
Proof. unfold len. rewrite length_app. lia. Qed.

Lemma len_take (s : list N) (k : Z) :
  0 <= k <= len s -> len (take (Z.to_nat k) s) = k.
Proof. unfold len. intros Hk. rewrite length_take. lia. Qed.

(* ================================================================== *)
(** * Punctuation auto-insert *)
(* ================================================================== *)

(** C10.  Whenever [handleIgnorePunctuation] returns true and the node it
    addresses is a text node (the caret lying within its data), the only
    change to the document is that this node receives, at the caret
    index, the character the current target line holds at that index,
    which is neither a letter nor a digit nor a newline: the data grow by
    exactly one code unit, what precedes the index and what follows it
    are unchanged; the caret is placed just after the inserted
    character, and the target text is untouched. *)
Theorem handleIgnorePunctuation_inserts_expected (key target : list N)
    (writer : list nat) (st st' : state) (r : range) (data : list N) :
  windowSelection st = Some (Some r) ->
  let node := punctuationNode writer st r in
  let index := punctuationIndex writer st r in
  node_at (tree st) node = Some (Text data) ->
  index <= len data ->
  handleIgnorePunctuation key (Some target) writer st = Returns (true, st') ->
  exists letter : N,
    at_index (getCurrentLine target (tree st) node) index = Some letter /\
    isAlphanumeric letter = false /\ letter <> LF /\
    let new := take (Z.to_nat index) data ++ letter :: drop (Z.to_nat index) data in
    tree st' = update_at (tree st) node (fun _ => Text new) /\
    node_at (tree st') node = Some (Text new) /\
    len new = len data + 1 /\
    windowSelection st' = Some (Some (Range node (index + 1))) /\
    targetText st' = targetText st.
Proof.
  intros Hsel node index Hnode Hindex H.
  unfold handleIgnorePunctuation in H.
  destruct (truthy (Some target)) as [target'|] eqn:Htarget; [|done].
  assert (target' = target) as ->.
  { destruct target; simpl in Htarget; congruence. }
  destruct (negb (NotAlphanumericRegex_test key) || str_eqb key [SPACE]); [done|].
  rewrite Hsel in H.
  fold (punctuationNode writer st r) in H. fold node in H.
  fold (punctuationIndex writer st r) in H. fold index in H.
  destruct (getCurrentLine target (tree st) node) as [|l0 line] eqn:Hline; [done|].
  destruct (at_index (l0 :: line) index) as [letter|] eqn:Hletter; [|done].
  destruct (negb (NotAlphanumericRegex_test [letter]) || char_eqb letter LF)
    eqn:Hcheck; [done|].
  apply orb_false_iff in Hcheck as [Halnum Hlf].
  assert (0 <= index) as Hpos.
  { unfold at_index in Hletter. destruct (Z.ltb_spec index 0); [done|lia]. }
  unfold textContent_at in H. rewrite Hnode in H. simpl textContent in H.
  rewrite slice_prefix, slice_suffix in H by lia.
  set (new := take (Z.to_nat index) data ++ [letter] ++ drop (Z.to_nat index) data) in *.
  assert (len new = len data + 1) as Hlen.
  { subst new. unfold len. rewrite !length_app, length_take, length_drop.
    simpl. unfold len in Hindex. lia. }
  assert (update_at (tree st) node (set_textContent new)
          = update_at (tree st) node (fun _ => Text new)) as Hupd.
  { clear -Hnode. revert Hnode. generalize (tree st) as doc.
    induction node as [|i p IH]; intros doc; simpl.
    - by intros [= ->].
    - destruct doc as [d|cs]; simpl; [done|].
      destruct (cs !! i) as [c|] eqn:E; [|done]. intros Hc. f_equal.
      apply list_eq. intros j. rewrite !list_lookup_alter.
      destruct (decide (i = j)) as [<-|]; [|done].
      rewrite E. simpl. f_equal. by apply IH. }
  unfold setCaret in H. simpl tree in H.
  rewrite (node_at_update_same _ _ _ _ Hnode) in H. simpl in H.
  destruct ((Z.min (index + 1) (len new) <? 0)
            || (Z.min (index + 1) (len new) >? len new)) eqn:Hrange; [done|].
  injection H as <-. simpl.
  exists letter. repeat split; try done.
  - rewrite negb_false_iff in Halnum. simpl in Halnum.
    rewrite orb_false_r in Halnum. by apply negb_true_iff in Halnum.
  - intros ->. by rewrite char_eqb_refl in Hlf.
  - rewrite Hupd. by rewrite (node_at_update_same _ _ _ _ Hnode).
  - do 3 f_equal. lia.
Qed.

Lemma handleIgnorePunctuation_inserts_expected_witness :
  let st := State (Element [Element [Text (js "a")]])
              (Some (Some (Range [0%nat; 0%nat] 1))) (Some (js "a,b")) in
  exists letter : N,
    letter <> LF /\
    forall st', handleIgnorePunctuation (js ";") (Some (js "a,b")) [0%nat] st
                = Returns (true, st') ->
                tree st' = Element [Element [Text (js "a" ++ [letter])]].
Proof.
  intros st.
  destruct (handleIgnorePunctuation_inserts_expected (js ";") (js "a,b")
              [0%nat] st
              (State (Element [Element [Text (js "a,")]])
                 (Some (Some (Range [0%nat; 0%nat] 2))) (Some (js "a,b")))
              (Range [0%nat; 0%nat] 1) (js "a")
              eq_refl eq_refl ltac:(vm_compute; discriminate) eq_refl)
    as (letter & Hat & _ & Hlf & Htree & _).
  exists letter. split; [exact Hlf|].
  intros st' H. vm_compute in H. injection H as <-.
  vm_compute in Hat. injection Hat as <-. reflexivity.
Defined.

(* ================================================================== *)
(** * Autocorrect *)
(* ================================================================== *)

Lemma handleAutocorrect_loop_Some (children : list node) (i0 : nat)
    (off0 start end_ : Z) (word : list N) (sp : bool)
    (i : nat) (new : list N) (pos : Z) :
  handleAutocorrect_loop children i0 off0 start end_ word sp
    = Some (i, new, pos) ->
  exists (k : nat) (data : list N),
    i = (i0 + k)%nat /\
    children !! k = Some (Text data) /\
    let off := off0 + len (concat (map textContent (take k children))) in
    start <= off + len data /\
    new = slice data 0 (Some (start - off)) ++ word
          ++ (if sp then [SPACE] else []) ++ slice data (end_ - off) None /\
    pos = start - off + len word + (if sp then 1 else 0) /\
    (off0 <= start ->
     Forall (fun c => isText c = true) (take k children) -> off <= start).
Proof.
  revert i0 off0.
  induction children as [|c rest IH]; intros i0 off0; simpl; [done|].
  assert (forall d,
    handleAutocorrect_loop rest (S i0) (off0 + len d) start end_ word sp
      = Some (i, new, pos) ->
    textContent c = d ->
    (off0 <= start -> isText c = true -> off0 + len d <= start) ->
    exists (k : nat) (data : list N),
      i = (i0 + k)%nat /\ (c :: rest) !! k = Some (Text data) /\
      let off := off0 + len (concat (map textContent (take k (c :: rest)))) in
      start <= off + len data /\
      new = slice data 0 (Some (start - off)) ++ word
            ++ (if sp then [SPACE] else []) ++ slice data (end_ - off) None /\
      pos = start - off + len word + (if sp then 1 else 0) /\
      (off0 <= start ->
       Forall (fun c => isText c = true) (take k (c :: rest)) -> off <= start))
    as Hnext.
  { intros d Hrec Hd Hle.
    destruct (IH _ _ Hrec) as (k & data & -> & Hk & Hoff & Hnew & Hpos & Hguard).
    exists (S k), data. simpl. rewrite Hd, len_app.
    replace (off0 + (len d + len (concat (map textContent (take k rest)))))
      with (off0 + len d + len (concat (map textContent (take k rest)))) by lia.
    repeat split; try done; try lia.
    intros H0 Hall. inversion_clear Hall as [|? ? Hc Hrest].
    apply Hguard; [by apply Hle|done]. }
  destruct c as [d|cs].
  - simpl textContent in *.
    destruct (Z.geb_spec (off0 + len d) start) as [Hge|Hlt].
    + intros [= <- <- <-]. exists 0%nat, d. simpl.
      replace (off0 + len []) with off0 by (unfold len; simpl; lia).
      repeat split; try done; lia.
    + intros Hrec. apply (Hnext d Hrec eq_refl). lia.
  - intros Hrec. apply (Hnext _ Hrec eq_refl). intros _ Habs. discriminate Habs.
Qed.



(** C9 fails on the code.  The loop of [handleAutocorrect] that looks
    for the text node to replace takes the first text child whose end
    reaches the start of the word, and rewrites it as if the word lay
    within it.  Here the writer holds an element with the text "ab"
    followed by the text node "cd", the caret is at the end of "cd" and
    the target is "abxd", its only word, so that no space is due and the
    caret should stand directly after the corrected word.  The text node
    "cd" is rewritten to "abxd", the element is left, so that the writer
    reads "ababxd", and the caret is put at offset 2 of "abxd": inside
    the word, not after it. *)
Lemma handleAutocorrect_caret_inside_word :
  let target := js "abxd" in
  let st := State (Element [Element [Text (js "ab")]; Text (js "cd")])
              (Some (Some (Range [1%nat] 2))) (Some target) in
  getNextSpace target (getTextPosition (tree st) [] [1%nat] 2) = len target /\
  handleAutocorrect [SPACE] (Some target) [] true st =
    Returns (true,
             State (Element [Element [Text (js "ab")]; Text (js "abxd")])
               (Some (Some (Range [1%nat] 2))) (Some target)) /\
  2 <> len (js "abxd").
Proof. simpl. split; [reflexivity|split; [reflexivity|discriminate]]. Qed.

(** The same loop with the text children that Enter leaves in the
    writer: the line "one two", the line break and the typed "thre",
    the caret after "thre", the target being "one two", two newlines and
    "three four".  A newline is no word boundary for [getPreviousSpace],
    so the word starts in the first text node: that node is rewritten to
    hold the whole target up to "three " and the two nodes after it are
    left, the typed "thre" with them. *)
Example handleAutocorrect_word_across_nodes :
  let target := js "one two" ++ [LF; LF] ++ js "three four" in
  let st := State (Element [Text (js "one two"); Text [LF; LF];
                            Text (js "thre")])
              (Some (Some (Range [2%nat] 4))) (Some target) in
  handleAutocorrect [SPACE] (Some target) [] true st =
    Returns (true,
             State (Element [Text (js "one two" ++ [LF; LF] ++ js "three ");
                             Text [LF; LF]; Text (js "thre")])
               (Some (Some (Range [0%nat] 15))) (Some target)).
Proof. reflexivity. Qed.

(* ================================================================== *)
(** * The autocorrect scenario *)
(* ================================================================== *)

Lemma getTextPosition_only_child (doc : node) (writer : list nat)
    (data : list N) (offset : Z) :
  node_at doc writer = Some (Element [Text data]) ->
  getTextPosition doc writer (writer ++ [0%nat]) offset = offset.
Proof.
  intros H. unfold getTextPosition, treeWalker_text. rewrite H. simpl.
  by rewrite path_eqb_refl.
Qed.

(** C3.  The target is "the quick fox"; the writer, wherever it stands in
    the document, holds the single text node "teh" and the caret is in
    that node at offset 3.  On a space keydown with autocorrect enabled,
    [handleAutocorrect] rewrites the text node to "the " (the target word
    and one space), places the caret at offset 4, just after the space,
    and returns true; the keydown handler then prevents the default
    action, so the space typed is suppressed. *)
Theorem handleAutocorrect_teh_scenario (doc : node) (writer : list nat)
    (ignore : bool) (innerText : list N) :
  node_at doc writer = Some (Element [Text (js "teh")]) ->
  let target := js "the quick fox" in
  let caret := fun offset => Some (Some (Range (writer ++ [0%nat]) offset)) in
  let st := State doc (caret 3) (Some target) in
  let st' :=
    State (update_at doc (writer ++ [0%nat]) (set_textContent (js "the ")))
      (caret 4) (Some target) in
  handleAutocorrect [SPACE] (Some target) writer true st = Returns (true, st') /\
  node_at (tree st') writer = Some (Element [Text (js "the ")]) /\
  textContent_at (tree st') writer = js "the " /\
  onKeydown (Some target) writer (Settings true ignore) innerText
    (KeyEvent [SPACE] false false false false) st = Handled true st'.
Proof.
  intros Hw target caret st st'.
  assert (node_at doc (writer ++ [0%nat]) = Some (Text (js "teh"))) as Hchild.
  { rewrite node_at_app, Hw. reflexivity. }
  assert (path_eqb (writer ++ [0%nat]) writer = false) as Hne.
  { apply path_eqb_neq, snoc_neq. }
  assert (textContent_at doc writer = js "teh") as Htext.
  { unfold textContent_at. rewrite Hw. reflexivity. }
  assert (node_at (tree st') writer = Some (Element [Text (js "the ")])) as Hnew.
  { subst st'. cbn [tree]. by rewrite (node_at_update_app _ _ _ _ _ Hw). }
  assert (handleAutocorrect [SPACE] (Some target) writer true st
          = Returns (true, st')) as Hcorrect.
  { unfold handleAutocorrect.
    change (truthy (Some target)) with (Some target). cbv beta iota.
    subst st caret. cbn [windowSelection tree startContainer startOffset targetText].
    rewrite Hne. cbv beta iota zeta.
    rewrite Htext, (getTextPosition_only_child _ _ _ _ Hw), Hw.
    change (getPreviousSpace (js "teh") (Some 3)) with 0.
    change (getNextSpace target 3) with 3.
    change (slice (js "teh") 0 (Some 3)) with (js "teh").
    change (slice target 0 (Some 3)) with (js "the").
    change (str_eqb (js "teh") (js "the")) with false.
    change ((3 >? 0) && (str_eqb [SPACE] [SPACE] || (3 =? 3))) with true.
    change (true && (3 <? len target)) with true.
    cbv beta iota.
    change (childNodes (default (Element []) (Some (Element [Text (js "teh")]))))
      with [Text (js "teh")].
    change (handleAutocorrect_loop [Text (js "teh")] 0 0 0 3 (js "the") true)
      with (Some (0%nat, js "the ", 4)).
    cbv beta iota zeta.
    unfold setCaret. cbn [tree windowSelection targetText].
    rewrite (node_at_update_same _ _ _ _ Hchild).
    reflexivity. }
  split; [done|]. split; [done|]. split.
  { unfold textContent_at. by rewrite Hnew. }
  unfold onKeydown.
  change (truthy (Some target)) with (Some target). cbv beta iota.
  cbn [key_dontstealfocus metaKey altKey ctrlKey key orb].
  replace (node_at (tree st) writer) with (Some (Element [Text (js "teh")]))
    by (symmetry; exact Hw).
  change (str_eqb [SPACE] (js "Enter")) with false.
  change (str_eqb [SPACE] [SPACE]) with true.
  cbv beta iota.
  replace (textContent_at (tree st) writer) with [116%N; 101%N; 104%N]
    by (symmetry; exact Htext).
  cbv beta iota.
  assert (wouldCreateConsecutiveSpaces writer st = Returns false) as ->.
  { unfold wouldCreateConsecutiveSpaces. subst st caret.
    cbn [windowSelection tree startContainer startOffset].
    rewrite Hne. unfold textContent_at. rewrite Hchild. reflexivity. }
  assert (handleIgnorePunctuation [SPACE] (Some target) writer st
          = Returns (false, st)) as Hpunct by reflexivity.
  cbn [ignore_punctuation autocorrect andb].
  destruct ignore.
  - rewrite Hpunct. cbv beta iota. by rewrite Hcorrect.
  - cbv beta iota. by rewrite Hcorrect.
Qed.

Lemma handleAutocorrect_teh_scenario_witness :
  let target := js "the quick fox" in
  onKeydown (Some target) [2%nat]
    (Settings true true) (js "teh")
    (KeyEvent [SPACE] false false false false)
    (State (Element [Element []; Text (js "Copy:"); Element [Text (js "teh")]])
       (Some (Some (Range [2%nat; 0%nat] 3))) (Some target)) =
  Handled true
    (State (Element [Element []; Text (js "Copy:"); Element [Text (js "the ")]])
       (Some (Some (Range [2%nat; 0%nat] 4))) (Some target)).
Proof.
  intros target.
  apply (handleAutocorrect_teh_scenario
           (Element [Element []; Text (js "Copy:"); Element [Text (js "teh")]])
           [2%nat] true (js "teh")).
  reflexivity.
Defined.

(* ================================================================== *)
(** * Further properties: word boundaries *)
(* ================================================================== *)

Lemma index_of_first (c : N) (s : list N) (k i : nat) :
  index_of c s = Some k -> (i < k)%nat -> s !! i <> Some c.
Proof.
  revert k i. induction s as [|x s IH]; intros k i; simpl; [done|].
  destruct (char_eqb x c) eqn:E.
  - intros [= <-] Hi. lia.
  - destruct (index_of c s) as [k'|] eqn:Ek; simpl; [|done].
    intros [= <-] Hi. destruct i as [|i]; simpl.
    + intros [= ->]. by rewrite char_eqb_refl in E.
    + apply (IH k'); [done|lia].
Qed.

Lemma index_of_None (c : N) (s : list N) (i : nat) :
  index_of c s = None -> s !! i <> Some c.
Proof.
  revert i. induction s as [|x s IH]; intros i; simpl; [done|].
  destruct (char_eqb x c) eqn:E; [done|].
  destruct (index_of c s) as [k'|] eqn:Ek; simpl; [done|].
  intros _. destruct i as [|i]; simpl.
  - intros [= ->]. by rewrite char_eqb_refl in E.
  - by apply IH.
Qed.

Lemma last_index_of_last (c : N) (s : list N) (k i : nat) :
  last_index_of c s = Some k -> (k < i)%nat -> s !! i <> Some c.
Proof.
  revert k i. induction s as [|x s IH]; intros k i; simpl; [done|].
  destruct (last_index_of c s) as [k'|] eqn:Ek.
  - intros [= <-] Hi. destruct i as [|i]; [lia|]. simpl.
    apply (IH k'); [done|lia].
  - destruct (char_eqb x c); [|done].
    intros [= <-] Hi. destruct i as [|i]; [lia|]. simpl.
    clear -Ek. revert i. induction s as [|y s IHs]; intros i; simpl in *; [done|].
    destruct (last_index_of c s) as [k'|]; [done|].
    destruct (char_eqb y c) eqn:E; [done|].
    destruct i as [|i]; simpl.
    + intros [= ->]. by rewrite char_eqb_refl in E.
    + by apply IHs.
Qed.

Lemma last_index_of_None (c : N) (s : list N) (i : nat) :
  last_index_of c s = None -> s !! i <> Some c.
Proof.
  revert i. induction s as [|y s IHs]; intros i; simpl in *; [done|].
  destruct (last_index_of c s) as [k'|]; [done|].
  destruct (char_eqb y c) eqn:E; [done|].
  intros _. destruct i as [|i]; simpl.
  - intros [= ->]. by rewrite char_eqb_refl in E.
  - by apply IHs.
Qed.

Lemma at_index_nat (s : list N) (i : Z) :
  0 <= i -> at_index s i = s !! Z.to_nat i.
Proof. intros Hi. unfold at_index. by destruct (Z.ltb_spec i 0); [lia|]. Qed.

Lemma at_index_negative (s : list N) (i : Z) : i < 0 -> at_index s i = None.
Proof. intros Hi. unfold at_index. by destruct (Z.ltb_spec i 0); [|lia]. Qed.

Lemma getNextSpace_facts (text : list N) (offset : Z) :
  let r := getNextSpace text offset in
  (r = len text \/ at_index text r = Some SPACE) /\
  (forall i, offset <= i < r -> at_index text i <> Some SPACE) /\
  (offset <= len text -> offset <= r).
Proof.
  intros r. subst r. unfold getNextSpace.
  destruct text as [|x text]; [|set (t := x :: text)].
  { split; [by left|]. split; [|done].
    intros i Hi. rewrite at_index_negative by lia. done. }
  unfold indexOf. set (start := Z.to_nat (clamp 0 (len t) offset)).
  assert (Z.of_nat start = clamp 0 (len t) offset) as Hstart.
  { subst start. unfold clamp, len. lia. }
  unfold clamp, len in Hstart.
  destruct (index_of SPACE (drop start t)) as [k|] eqn:E.
  - pose proof (index_of_Some _ _ _ E) as Hk. rewrite lookup_drop in Hk.
    pose proof (lookup_lt_Some _ _ _ Hk) as Hlt.
    destruct (Z.ltb_spec (Z.of_nat (start + k)) 0); [lia|].
    split; [right|split].
    + rewrite at_index_nat by lia. by rewrite Nat2Z.id.
    + intros i Hi. destruct (Z.ltb_spec i 0) as [Hneg|Hpos].
      { by rewrite at_index_negative. }
      rewrite at_index_nat by done.
      replace (Z.to_nat i) with (start + (Z.to_nat i - start))%nat by lia.
      rewrite <- lookup_drop. apply (index_of_first _ _ _ _ E). lia.
    + lia.
  - change (-1 <? 0) with true. cbv iota.
    split; [by left|split].
    + intros i Hi. destruct (Z.ltb_spec i 0) as [Hneg|Hpos].
      { by rewrite at_index_negative. }
      rewrite at_index_nat by done. unfold len in Hi.
      replace (Z.to_nat i) with (start + (Z.to_nat i - start))%nat by lia.
      rewrite <- lookup_drop. by apply index_of_None.
    + unfold len. lia.
Qed.

(** [getNextSpace(text, offset)] is the length of the text or the index of
    a space; no index from [offset] up to the result holds a space, and
    the result is not before an offset that lies within the text. *)
Theorem getNextSpace_nearest (text : list N) (offset : Z) :
  let r := getNextSpace text offset in
  (r = len text \/ at_index text r = Some SPACE) /\
  (forall i, offset <= i < r -> at_index text i <> Some SPACE) /\
  (offset <= len text -> offset <= r).
Proof. apply getNextSpace_facts. Qed.

Lemma getNextSpace_nearest_witness :
  1 <= getNextSpace (js "the quick fox") 1 /\
  at_index (js "the quick fox") 2 <> Some SPACE.
Proof.
  pose proof (getNextSpace_nearest (js "the quick fox") 1) as (_ & Hfree & Hge).
  split.
  - apply Hge. vm_compute. discriminate.
  - apply Hfree. vm_compute. split; [discriminate|reflexivity].
Defined.

Lemma getPreviousSpace_facts (text : list N) (offset : Z) :
  let r := getPreviousSpace text (Some offset) in
  let r' := getPreviousSpace text None in
  0 <= r <= len text /\
  (forall i, r <= i <= offset -> at_index text i <> Some SPACE) /\
  (0 <= offset -> r <= offset + 1) /\
  (forall i, r' <= i -> at_index text i <> Some SPACE).
Proof.
  intros r r'. subst r r'.
  assert (forall (o : option Z) (start : nat),
    start = match o with
            | Some p => Z.to_nat (clamp 0 (len text) p)
            | None => length text
            end ->
    0 <= getPreviousSpace text o <= len text /\
    getPreviousSpace text o <= Z.of_nat start + 1 /\
    forall i : nat, getPreviousSpace text o <= Z.of_nat i ->
                    (i <= start)%nat -> text !! i <> Some SPACE) as Hgen.
  { intros o start Hs. unfold getPreviousSpace.
    destruct text as [|x text]; [|set (t := x :: text) in *].
    { split; [done|]. split; [lia|]. done. }
    unfold lastIndexOf. rewrite <- Hs.
    destruct (last_index_of SPACE (take (S start) t)) as [k|] eqn:E.
    - pose proof (last_index_of_Some _ _ _ E) as Hk.
      apply lookup_take_Some in Hk as [Hk Hlt].
      pose proof (lookup_lt_Some _ _ _ Hk) as Hlen.
      destruct (Z.ltb_spec (Z.of_nat k) 0); [lia|].
      split; [unfold len; lia|]. split; [lia|].
      intros i Hi Hle.
      rewrite <- (lookup_take_lt t (S start) i) by lia.
      apply (last_index_of_last _ _ _ _ E). lia.
    - change (-1 <? 0) with true. cbv iota.
      split; [unfold len; lia|]. split; [lia|].
      intros i Hi Hle.
      rewrite <- (lookup_take_lt t (S start) i) by lia.
      by apply last_index_of_None. }
  destruct (Hgen (Some offset) _ eq_refl) as (Hr & Hle & Hfree).
  destruct (Hgen None _ eq_refl) as (Hr' & _ & Hfree').
  split; [done|]. split; [|split].
  - intros i Hi. rewrite at_index_nat by lia.
    destruct (decide (Z.to_nat i < length text)%nat) as [Hin|Hout].
    + apply Hfree; [lia|]. unfold clamp, len. lia.
    + rewrite lookup_ge_None_2 by lia. done.
  - intros Hpos. unfold clamp, len in *. lia.
  - intros i Hi. rewrite at_index_nat by lia.
    destruct (decide (Z.to_nat i < length text)%nat) as [Hin|Hout].
    + apply Hfree'; lia.
    + rewrite lookup_ge_None_2 by lia. done.
Qed.

(** [getPreviousSpace(text, offset)] lies within the text, and no index
    from the result up to [offset] holds a space; it never exceeds
    [offset + 1] for an offset that is not negative.  With no offset
    given, no index from the result on holds a space. *)
Theorem getPreviousSpace_nearest (text : list N) (offset : Z) :
  let r := getPreviousSpace text (Some offset) in
  let r' := getPreviousSpace text None in
  0 <= r <= len text /\
  (forall i, r <= i <= offset -> at_index text i <> Some SPACE) /\
  (0 <= offset -> r <= offset + 1) /\
  (forall i, r' <= i -> at_index text i <> Some SPACE).
Proof. apply getPreviousSpace_facts. Qed.

Lemma getPreviousSpace_nearest_witness :
  getPreviousSpace (js "the quick fox") (Some 7) <= 8 /\
  at_index (js "the quick fox") 5 <> Some SPACE.
Proof.
  pose proof (getPreviousSpace_nearest (js "the quick fox") 7)
    as (_ & Hfree & Hle & _).
  split.
  - apply Hle. vm_compute. discriminate.
  - apply Hfree. vm_compute. split; discriminate.
Defined.

Lemma lookup_slice (s : list N) (a b : Z) (j : nat) (x : N) :
  0 <= a <= len s -> 0 <= b ->
  slice s a (Some b) !! j = Some x ->
  s !! (Z.to_nat a + j)%nat = Some x /\ a + Z.of_nat j < b.
Proof.
  intros Ha Hb. unfold slice, relative, len in *.
  destruct (Z.ltb_spec a 0); [lia|]. destruct (Z.ltb_spec b 0); [lia|].
  rewrite lookup_take_Some, lookup_drop.
  intros [Hx Hj]. split; [|lia].
  by replace (Z.to_nat (Z.min a (Z.of_nat (length s)))) with (Z.to_nat a) in Hx by lia.
Qed.

(** The word that [handleAutocorrect] and the Enter branch of [onKeydown]
    read before the caret,
    [fullText.slice(getPreviousSpace(fullText, position), position)],
    holds no space, whatever the text and the position are (positions
    computed by [getTextPosition] are not negative). *)
Theorem enteredWord_no_space (fullText : list N) (currentPosition : Z) :
  0 <= currentPosition ->
  Forall (fun c => c <> SPACE)
    (slice fullText (getPreviousSpace fullText (Some currentPosition))
       (Some currentPosition)).
Proof.
  intros Hpos.
  destruct (getPreviousSpace_facts fullText currentPosition)
    as (Hr & Hfree & _ & _).
  apply Forall_lookup. intros j x Hx.
  apply lookup_slice in Hx as [Hx Hlt]; [|done|done].
  intros ->.
  apply (Hfree (getPreviousSpace fullText (Some currentPosition) + Z.of_nat j));
    [lia|].
  rewrite at_index_nat by lia. rewrite <- Hx. f_equal. lia.
Qed.

Lemma enteredWord_no_space_witness :
  Forall (fun c => c <> SPACE)
    (slice (js "the qiuck") (getPreviousSpace (js "the qiuck") (Some 9))
       (Some 9)).
Proof.
  apply (enteredWord_no_space (js "the qiuck") 9). vm_compute. discriminate.
Defined.

(* ================================================================== *)
(** * Further properties: the position mapper *)
(* ================================================================== *)

Lemma NoDup_map_inj {A B : Type} (f : A -> B) (l : list A) :
  (forall x y, f x = f y -> x = y) -> NoDup l -> NoDup (map f l).
Proof.
  intros Hinj. induction 1 as [|x l Hx Hl IH]; simpl; constructor; [|done].
  rewrite list_elem_of_In, in_map_iff. intros (y & Hy & Hin).
  apply Hinj in Hy. subst y. by apply list_elem_of_In in Hin.
Qed.

Lemma text_nodes_children_paths (children : list node) :
  Forall (fun c => NoDup (map fst (text_nodes c))) children ->
  forall i : nat,
    let paths :=
      map fst
        ((fix walk (i : nat) (cs : list node) : list (list nat * list N) :=
            match cs with
            | [] => []
            | c :: cs' =>
                map (fun pd => (i :: fst pd, snd pd)) (text_nodes c)
                ++ walk (S i) cs'
            end) i children) in
    NoDup paths /\
    forall p, In p paths -> exists j q, p = j :: q /\ (i <= j)%nat.
Proof.
  induction 1 as [|c children Hc _ IH]; intros i; simpl.
  - split; [constructor|]. intros p [].
  - destruct (IH (S i)) as [Hnd Hge]. rewrite map_app, map_map. simpl.
    split.
    + apply list.NoDup_app. split; [|split; [|done]].
      * rewrite <- (map_map fst (cons i)).
        apply NoDup_map_inj; [|done]. by intros x y [= ->].
      * intros p Hp Hp'. apply list_elem_of_In in Hp, Hp'.
        apply in_map_iff in Hp as (pd & <- & _).
        destruct (Hge _ Hp') as (j & q & [= <- <-] & Hle). lia.
    + intros p Hp. apply in_app_or in Hp as [Hp|Hp].
      * apply in_map_iff in Hp as (pd & <- & _). exists i, (fst pd). by split.
      * destruct (Hge _ Hp) as (j & q & -> & Hle). exists j, q. split; [done|lia].
Qed.

Lemma text_nodes_NoDup (n : node) : NoDup (map fst (text_nodes n)).
Proof.
  induction n as [data|children IH] using node_ind_children.
  - simpl. apply NoDup_singleton.
  - apply (text_nodes_children_paths children IH 0%nat).
Qed.

Lemma treeWalker_text_NoDup (doc : node) (root : list nat) :
  NoDup (map fst (treeWalker_text doc root)).
Proof.
  unfold treeWalker_text.
  destruct (node_at doc root) as [[data|children]|]; try constructor.
  rewrite map_map. simpl.
  pose proof (text_nodes_NoDup (Element children)) as H.
  rewrite <- (map_map fst (app root)).
  apply NoDup_map_inj; [|done]. intros x y. apply app_inv_head.
Qed.

Lemma getTextPosition_loop_hit (before after : list (list nat * list N))
    (currentNode : list nat) (data : list N) (offset position : Z) :
  ~ In currentNode (map fst before) ->
  getTextPosition_loop (before ++ (currentNode, data) :: after)
    currentNode offset position =
  position + len (concat (map snd before)) + offset.
Proof.
  revert position.
  induction before as [|[p d] before IH]; intros position Hnot; simpl.
  - rewrite path_eqb_refl. unfold len. simpl. lia.
  - simpl in Hnot. rewrite path_eqb_neq by tauto.
    rewrite IH by tauto. rewrite len_app. lia.
Qed.

(** When [currentNode] is one of the text descendants of [editor],
    [getTextPosition] returns the number of code units of the text
    descendants that precede it in document order, plus [offset]; for an
    offset within the node this position lies within the text content of
    the editor. *)
Theorem getTextPosition_found (doc : node) (editor currentNode : list nat)
    (offset : Z) (before after : list (list nat * list N)) (data : list N) :
  treeWalker_text doc editor = before ++ (currentNode, data) :: after ->
  getTextPosition doc editor currentNode offset =
    len (concat (map snd before)) + offset /\
  (0 <= offset <= len data ->
   0 <= getTextPosition doc editor currentNode offset
     <= len (textContent_at doc editor)).
Proof.
  intros Hwalk.
  assert (~ In currentNode (map fst before)) as Hnot.
  { pose proof (treeWalker_text_NoDup doc editor) as Hnd.
    rewrite Hwalk, map_app in Hnd. simpl in Hnd.
    apply list.NoDup_app in Hnd as (_ & Hdisj & _).
    intros Hin. apply (Hdisj currentNode); [by apply list_elem_of_In|].
    apply list_elem_of_here. }
  assert (getTextPosition doc editor currentNode offset =
          len (concat (map snd before)) + offset) as Hpos.
  { unfold getTextPosition. rewrite Hwalk.
    rewrite getTextPosition_loop_hit by done. lia. }
  split; [done|]. intros Hoff. rewrite Hpos.
  assert (len (textContent_at doc editor) =
          len (concat (map snd before)) + len data
          + len (concat (map snd after))) as ->.
  { destruct (node_at doc editor) as [[d|children]|] eqn:E;
      try (unfold treeWalker_text in Hwalk; rewrite E in Hwalk;
           by destruct before).
    unfold textContent_at. rewrite E.
    rewrite <- (treeWalker_text_data _ _ _ E), Hwalk.
    rewrite map_app, concat_app. simpl. rewrite !len_app. lia. }
  unfold len in *. lia.
Qed.

Lemma getTextPosition_found_witness :
  getTextPosition
    (Element [Text (js "one "); Element [Text (js "two")]; Text (js " three")])
    [] [2%nat] 3 = 10.
Proof.
  apply (getTextPosition_found
           (Element [Text (js "one "); Element [Text (js "two")];
                     Text (js " three")])
           [] [2%nat] 3
           [([0%nat], js "one "); ([1%nat; 0%nat], js "two")] []
           (js " three")).
  reflexivity.
Defined.

(* ================================================================== *)
(** * Further properties: the key-up scan *)
(* ================================================================== *)

Lemma scan_cover_step (contentToCopy text : list N) (k : nat) (s : scan) :
  scan_cover contentToCopy text k s ->
  scan_cover contentToCopy text (S k) (onKeyUp_step contentToCopy text s k).
Proof.
  intros Hcov. unfold onKeyUp_step.
  destruct (differs contentToCopy text k) eqn:Hd.
  - destruct Hcov as [rs Hall | rs s0 Hlt Hall]; simpl.
    + apply cover_open; [lia|]. intros i Hi Hne.
      destruct (decide (i = k)) as [->|]; [by right|].
      left. apply Hall; [lia|done].
    + apply cover_open; [lia|]. intros i Hi Hne.
      destruct (decide (i = k)) as [->|]; [right; lia|].
      apply Hall; [lia|done].
  - apply differs_false in Hd.
    destruct Hcov as [rs Hall | rs s0 Hlt Hall]; simpl.
    + apply cover_idle. intros i Hi Hne.
      destruct (decide (i = k)) as [->|]; [done|].
      apply Hall; [lia|done].
    + rewrite push_last_snoc.
      change ([s0] ++ [k]) with (run_array (s0, k)).
      change [run_array (s0, k)] with (map run_array [(s0, k)]).
      rewrite <- map_app. apply cover_idle. intros i Hi Hne.
      destruct (decide (i = k)) as [->|]; [done|].
      destruct (Hall i ltac:(lia) Hne) as [(r & Hr & Hin)|Hge].
      * exists r. split; [|done]. apply in_or_app. by left.
      * exists (s0, k). split; [apply in_or_app; right; by left|]. simpl. lia.
Qed.

Lemma scan_cover_upto (contentToCopy text : list N) (k : nat) :
  scan_cover contentToCopy text k (scan_upto contentToCopy text k).
Proof.
  induction k as [|k IH].
  - apply (cover_idle _ _ 0 []). intros i Hi. lia.
  - rewrite scan_upto_S. by apply scan_cover_step.
Qed.

Lemma onKeyUp_errors_cover (contentToCopy text : list N) (i : nat) :
  (i < length text)%nat -> text !! i <> contentToCopy !! i ->
  exists s e : nat,
    In [s; e] (onKeyUp_errors contentToCopy text) /\ (s <= i < e)%nat.
Proof.
  intros Hi Hne. unfold onKeyUp_errors.
  fold (scan_upto contentToCopy text (length text)).
  destruct (scan_cover_upto contentToCopy text (length text))
    as [rs Hall | rs s0 Hlt Hall]; simpl.
  - destruct (Hall i Hi Hne) as (r & Hr & Hin).
    exists (fst r), (snd r). split; [|done].
    apply in_map_iff. by exists r.
  - rewrite push_last_snoc.
    destruct (Hall i Hi Hne) as [(r & Hr & Hin)|Hge].
    + exists (fst r), (snd r). split; [|done].
      apply in_or_app. left. apply in_map_iff. by exists r.
    + exists s0, (length text). split; [|lia].
      apply in_or_app. right. by left.
Qed.

(** The runs of the key-up scan cover exactly the errors: an index of the
    typed text lies in one of the runs [[start, end)] if and only if the
    typed text differs from the target at that index. *)
Theorem onKeyUp_errors_exact (contentToCopy text : list N) (i : nat) :
  (i < length text)%nat ->
  (text !! i <> contentToCopy !! i <->
   exists s e : nat,
     In [s; e] (onKeyUp_errors contentToCopy text) /\ (s <= i < e)%nat).
Proof.
  intros Hi. split.
  - by apply onKeyUp_errors_cover.
  - intros (s & e & Hin & Hse).
    destruct (onKeyUp_errors_runs contentToCopy text) as (rs & Hrs & Hmax & _).
    rewrite Hrs in Hin. apply in_map_iff in Hin as (r & Hr & Hin).
    rewrite List.Forall_forall in Hmax.
    destruct (Hmax r Hin) as [_ Hdiff _ _].
    unfold run_array in Hr. injection Hr as <- <-. by apply Hdiff.
Qed.

Lemma onKeyUp_errors_exact_witness :
  exists s e : nat,
    In [s; e] (onKeyUp_errors (js "the quick") (js "teh quick")) /\
    (s <= 2 < e)%nat.
Proof.
  apply (onKeyUp_errors_exact (js "the quick") (js "teh quick") 2).
  - simpl. lia.
  - discriminate.
Defined.

(* ================================================================== *)
(** * Further properties: paste normalisation *)
(* ================================================================== *)

Section Replace.

Variable c : N.
Variable rep : list N.

Lemma replaceRuns_from_Forall (P : N -> Prop) (inrun : bool) (s : list N) :
  Forall P rep -> Forall P s -> Forall P (replaceRuns_from inrun c rep s).
Proof.
  intros Hrep. revert inrun.
  induction s as [|x s IH]; intros inrun Hs; simpl; [constructor|].
  inversion_clear Hs as [|? ? Hx Hs'].
  destruct (char_eqb x c).
  - apply Forall_app. split; [by destruct inrun|by apply IH].
  - constructor; [done|by apply IH].
Qed.

Lemma replaceEach_Forall (P : N -> Prop) (s : list N) :
  Forall P rep -> Forall P s -> Forall P (replaceEach c rep s).
Proof.
  intros Hrep. induction 1 as [|x s Hx Hs IH]; simpl; [constructor|].
  destruct (char_eqb x c).
  - apply Forall_app. by split.
  - by constructor.
Qed.

End Replace.

Lemma replaceEach_removes (c : N) (s : list N) :
  Forall (fun x => x <> c) (replaceEach c [] s).
Proof.
  induction s as [|x s IH]; simpl; [constructor|].
  destruct (char_eqb x c) eqn:E; [done|].
  constructor; [|done]. intros ->. by rewrite char_eqb_refl in E.
Qed.

Lemma replaceEach_absent (c : N) (rep s : list N) :
  Forall (fun x => x <> c) s -> replaceEach c rep s = s.
Proof.
  induction 1 as [|x s Hx Hs IH]; simpl; [done|].
  destruct (char_eqb x c) eqn:E.
  - by apply char_eqb_eq in E.
  - by rewrite IH.
Qed.

(** ** Trimming *)

Lemma trimStart_split (s : list N) :
  exists w, s = w ++ trimStart s /\ Forall (fun x => isWhiteSpace x = true) w.
Proof.
  induction s as [|x s (w & Hs & Hw)]; simpl.
  - by exists [].
  - destruct (isWhiteSpace x) eqn:E.
    + exists (x :: w). split; [simpl; by rewrite <- Hs|by constructor].
    + by exists [].
Qed.

Lemma trimStart_head (s : list N) :
  match trimStart s with
  | [] => True
  | x :: _ => isWhiteSpace x = false
  end.
Proof.
  induction s as [|x s IH]; simpl; [done|].
  by destruct (isWhiteSpace x) eqn:E.
Qed.

Lemma trimStart_fixed (s : list N) :
  match s with
  | [] => True
  | x :: _ => isWhiteSpace x = false
  end -> trimStart s = s.
Proof. destruct s as [|x s]; simpl; [done|]. by intros ->. Qed.

Lemma trimEnd_split (s : list N) :
  exists w, s = trimEnd s ++ w /\ Forall (fun x => isWhiteSpace x = true) w.
Proof.
  unfold trimEnd. destruct (trimStart_split (rev s)) as (w & Hs & Hw).
  exists (rev w). split.
  - rewrite <- rev_app_distr, <- Hs. by rewrite rev_involutive.
  - by apply Forall_rev.
Qed.

Lemma trim_trimmed (s : list N) : trimmed (trim s).
Proof.
  unfold trim, trimmed, trimEnd. split.
  - pose proof (trimStart_head s) as Hhead.
    destruct (trimEnd_split (trimStart s)) as (w & Hs & Hw).
    unfold trimEnd in Hs.
    destruct (rev (trimStart (rev (trimStart s)))) as [|x t]; [done|].
    rewrite Hs in Hhead. exact Hhead.
  - rewrite rev_involutive. apply trimStart_head.
Qed.

Lemma trim_fixed (s : list N) : trimmed s -> trim s = s.
Proof.
  intros [Hhead Hlast]. unfold trim, trimEnd.
  rewrite (trimStart_fixed s Hhead), (trimStart_fixed (rev s) Hlast).
  apply rev_involutive.
Qed.

Lemma trim_Forall (P : N -> Prop) (s : list N) :
  Forall P s -> Forall P (trim s).
Proof.
  intros Hs. unfold trim.
  destruct (trimStart_split s) as (w & Hw & _).
  destruct (trimEnd_split (trimStart s)) as (w' & Hw' & _).
  rewrite Hw, Hw' in Hs.
  apply Forall_app in Hs as [_ Hs]. by apply Forall_app in Hs as [Hs _].
Qed.

(** ** Runs of one code unit *)

Lemma isolated_from_weaken (prev : bool) (c : N) (s : list N) :
  isolated_from prev c s -> isolated c s.
Proof.
  unfold isolated. destruct s as [|x s]; simpl; [done|].
  destruct (char_eqb x c); [|done]. by intros [_ H].
Qed.

Lemma isolated_from_app (prev : bool) (c : N) (a b : list N) :
  isolated_from prev c (a ++ b) -> isolated_from prev c a /\ isolated c b.
Proof.
  revert prev. induction a as [|x a IH]; intros prev; simpl.
  - intros H. split; [done|]. by apply isolated_from_weaken in H.
  - destruct (char_eqb x c).
    + intros [Hp H]. apply IH in H as [Ha Hb]. by repeat split.
    + apply IH.
Qed.

Lemma replaceRuns_isolated (c : N) (s : list N) :
  isolated_from false c (replaceRuns_from false c [c] s) /\
  isolated_from true c (replaceRuns_from true c [c] s).
Proof.
  induction s as [|x s [IHf IHt]]; simpl; [done|].
  destruct (char_eqb x c) eqn:E; simpl.
  - rewrite char_eqb_refl. by repeat split.
  - rewrite E. by split.
Qed.

Lemma replaceRuns_isolated_fixed (c : N) (s : list N) :
  (isolated_from false c s -> replaceRuns_from false c [c] s = s) /\
  (isolated_from true c s -> replaceRuns_from true c [c] s = s).
Proof.
  induction s as [|x s [IHf IHt]]; simpl; [done|].
  destruct (char_eqb x c) eqn:E.
  - apply char_eqb_eq in E. subst x. split.
    + intros [_ H]. simpl. by rewrite IHt.
    + by intros [? _].
  - split; intros H; by rewrite IHf.
Qed.

(** Replacing runs of another code unit [d] by copies of [d] keeps the
    code units [c] apart. *)
Lemma replaceRuns_keeps_isolated (c d : N) (rep s : list N) (prev inrun : bool) :
  c <> d -> Forall (fun x => x = d) rep -> rep <> [] ->
  (inrun = true -> prev = false) ->
  isolated_from prev c s ->
  isolated_from prev c (replaceRuns_from inrun d rep s).
Proof.
  intros Hcd Hrep Hne. revert prev inrun.
  assert (char_eqb d c = false) as Edc.
  { destruct (char_eqb d c) eqn:E; [|done]. apply char_eqb_eq in E. by subst. }
  assert (forall t, isolated_from false c t ->
                    forall p, isolated_from p c (rep ++ t)) as Hprefix.
  { intros t Ht p. destruct rep as [|r0 rep0]; [done|].
    inversion_clear Hrep as [|? ? Hr0 Hrep0]. subst r0.
    simpl. rewrite Edc. clear Hne.
    induction Hrep0 as [|r1 rep1 Hr1 _ IH]; simpl; [done|].
    subst r1. by rewrite Edc. }
  induction s as [|x s IH]; intros prev inrun Hflag; simpl; [done|].
  destruct (char_eqb x d) eqn:Exd.
  - apply char_eqb_eq in Exd. subst x. rewrite Edc.
    intros H. destruct inrun; simpl.
    + rewrite (Hflag eq_refl). by apply IH.
    + apply Hprefix. by apply IH.
  - destruct (char_eqb x c) eqn:Exc.
    + intros [-> H]. simpl. rewrite Exc. split; [done|]. by apply IH.
    + intros H. simpl. rewrite Exc. by apply IH.
Qed.

Lemma paired_from_app (k : nat) (c : N) (a b : list N) :
  paired_from k c (a ++ b) -> exists k', paired_from k' c b.
Proof.
  revert k. induction a as [|x a IH]; intros k; simpl.
  - intros H. by exists k.
  - destruct (char_eqb x c); intros [_ H]; by apply IH in H.
Qed.

Lemma paired_from_start (k : nat) (c : N) (s : list N) :
  paired_from k c s ->
  match s with
  | [] => True
  | x :: _ => x <> c
  end -> paired c s.
Proof.
  unfold paired. destruct s as [|x s]; simpl; [done|].
  destruct (char_eqb x c) eqn:E.
  - intros _ Hx. apply char_eqb_eq in E. by subst.
  - by intros [_ H] _.
Qed.

Lemma paired_from_prefix (k : nat) (c : N) (a b : list N) :
  paired_from k c (a ++ b) ->
  match rev a with
  | [] => k <> 1%nat
  | y :: _ => y <> c
  end -> paired_from k c a.
Proof.
  revert k. induction a as [|x a IH]; intros k; simpl; [done|].
  intros H Hlast.
  assert (match rev a with
          | [] => x <> c
          | y :: _ => y <> c
          end) as Hlast'.
  { destruct (rev a) as [|y r]; simpl in Hlast; done. }
  destruct (char_eqb x c) eqn:E.
  - destruct H as [Hk H]. split; [done|]. apply (IH _ H).
    destruct (rev a) as [|y r]; [|done].
    apply char_eqb_eq in E. by subst.
  - destruct H as [Hk H]. split; [done|]. apply (IH _ H).
    by destruct (rev a) as [|y r].
Qed.

Lemma replaceRuns_paired (c : N) (s : list N) :
  paired_from 0 c (replaceRuns_from false c [c; c] s) /\
  paired_from 2 c (replaceRuns_from true c [c; c] s).
Proof.
  induction s as [|x s [IHf IHt]]; simpl; [split; lia|].
  destruct (char_eqb x c) eqn:E; simpl.
  - rewrite !char_eqb_refl. repeat split; try lia; done.
  - rewrite E. repeat split; try lia; done.
Qed.

Lemma replaceRuns_paired_fixed (c : N) (s : list N) :
  (paired_from 0 c s -> replaceRuns_from false c [c; c] s = s) /\
  (paired_from 1 c s -> c :: replaceRuns_from true c [c; c] s = s) /\
  (paired_from 2 c s -> replaceRuns_from true c [c; c] s = s).
Proof.
  induction s as [|x s (IH0 & IH1 & IH2)]; simpl.
  - repeat split; done.
  - destruct (char_eqb x c) eqn:E.
    + apply char_eqb_eq in E. subst x. repeat split.
      * intros [_ H]. simpl. f_equal. by apply IH1.
      * intros [_ H]. simpl. f_equal. by apply IH2.
      * intros [Hk _]. lia.
    + repeat split.
      * intros [_ H]. f_equal. by apply IH0.
      * intros [Hk _]. lia.
      * intros [_ H]. f_equal. by apply IH0.
Qed.

(** ** The normalised text *)

Lemma not_whitespace_LF (x : N) : isWhiteSpace x = false -> x <> LF.
Proof. intros H ->. discriminate H. Qed.

Lemma trim_paired (s : list N) : paired LF s -> paired LF (trim s).
Proof.
  intros Hs. unfold paired in *.
  destruct (trimStart_split s) as (w & Hw & _).
  rewrite Hw in Hs. apply paired_from_app in Hs as [k Hk].
  pose proof (trimStart_head s) as Hhead.
  assert (paired LF (trimStart s)) as Hstart.
  { apply (paired_from_start k); [done|].
    destruct (trimStart s) as [|x t]; [done|]. by apply not_whitespace_LF. }
  pose proof (trim_trimmed s) as [_ Hlast].
  unfold trim in *.
  destruct (trimEnd_split (trimStart s)) as (w' & Hw' & _).
  unfold paired in Hstart. rewrite Hw' in Hstart.
  apply (paired_from_prefix _ _ _ _ Hstart).
  destruct (rev (trimEnd (trimStart s))) as [|y r]; [done|].
  by apply not_whitespace_LF.
Qed.

Lemma trim_isolated (c : N) (s : list N) : isolated c s -> isolated c (trim s).
Proof.
  intros Hs. unfold trim.
  destruct (trimStart_split s) as (w & Hw & _).
  rewrite Hw in Hs. apply isolated_from_app in Hs as [_ Hs].
  destruct (trimEnd_split (trimStart s)) as (w' & Hw' & _).
  rewrite Hw' in Hs. by apply isolated_from_app in Hs as [Hs _].
Qed.

Lemma pastedData_facts (data : list N) :
  Forall (fun x => x <> TAB) (pastedData data) /\
  Forall (fun x => x <> CR) (pastedData data) /\
  paired LF (pastedData data) /\
  trimmed (pastedData data).
Proof.
  unfold pastedData. repeat split.
  - apply trim_Forall, replaceRuns_from_Forall.
    + by repeat constructor.
    + apply replaceEach_Forall; [constructor|]. apply replaceEach_removes.
  - apply trim_Forall, replaceRuns_from_Forall.
    + by repeat constructor.
    + apply replaceEach_removes.
  - apply trim_paired. apply replaceRuns_paired.
  - apply trim_trimmed.
  - apply trim_trimmed.
Qed.

Lemma pastedData_isolated (data : list N) :
  Forall (fun x => x <> TAB) data -> Forall (fun x => x <> CR) data ->
  isolated SPACE (pastedData data).
Proof.
  intros Htab Hcr. unfold pastedData.
  rewrite (replaceEach_absent TAB), (replaceEach_absent CR).
  - apply trim_isolated. unfold isolated, replaceRuns.
    apply replaceRuns_keeps_isolated; try done.
    + by repeat constructor.
    + apply replaceRuns_isolated.
  - apply replaceRuns_from_Forall; [by repeat constructor|done].
  - apply replaceRuns_from_Forall; [by repeat constructor|done].
Qed.

Lemma pastedData_fixed (t : list N) :
  isolated SPACE t -> Forall (fun x => x <> TAB) t ->
  Forall (fun x => x <> CR) t -> paired LF t -> trimmed t ->
  pastedData t = t.
Proof.
  intros Hsp Htab Hcr Hlf Htrim. unfold pastedData, replaceRuns.
  rewrite (proj1 (replaceRuns_isolated_fixed SPACE t) Hsp).
  rewrite (replaceEach_absent TAB) by done.
  rewrite (replaceEach_absent CR) by done.
  rewrite (proj1 (replaceRuns_paired_fixed LF t) Hlf).
  by apply trim_fixed.
Qed.

(** Whatever is pasted, the normalised text holds no tab and no carriage
    return, each of its runs of newlines has exactly two newlines, and it
    neither starts nor ends with whitespace. *)
Theorem pastedData_shape (data : list N) :
  Forall (fun x => x <> TAB) (pastedData data) /\
  Forall (fun x => x <> CR) (pastedData data) /\
  paired LF (pastedData data) /\
  trimmed (pastedData data).
Proof. apply pastedData_facts. Qed.

(** The texts that the normalisation leaves unchanged are exactly those
    in which no two spaces are adjacent, that hold no tab and no carriage
    return, whose runs of newlines have exactly two newlines, and that
    neither start nor end with whitespace. *)
Theorem pastedData_fixed_points (t : list N) :
  pastedData t = t <->
  isolated SPACE t /\ Forall (fun x => x <> TAB) t /\
  Forall (fun x => x <> CR) t /\ paired LF t /\ trimmed t.
Proof.
  split.
  - intros Hfix.
    destruct (pastedData_facts t) as (Htab & Hcr & Hlf & Htrim).
    rewrite Hfix in Htab, Hcr, Hlf, Htrim.
    split; [|done].
    rewrite <- Hfix. by apply pastedData_isolated.
  - intros (Hsp & Htab & Hcr & Hlf & Htrim). by apply pastedData_fixed.
Qed.

(** On a pasted text that holds no tab and no carriage return the
    normalisation is idempotent. *)
Theorem pastedData_idempotent_plain (data : list N) :
  Forall (fun x => x <> TAB) data -> Forall (fun x => x <> CR) data ->
  pastedData (pastedData data) = pastedData data.
Proof.
  intros Htab Hcr.
  destruct (pastedData_facts data) as (Htab' & Hcr' & Hlf & Htrim).
  apply pastedData_fixed; try done. by apply pastedData_isolated.
Qed.

Lemma pastedData_idempotent_plain_witness :
  let data := js "  one   two" ++ [LF; LF; LF] ++ js "three " ++ [LF] in
  pastedData (pastedData data) = pastedData data.
Proof.
  intros data. apply (pastedData_idempotent_plain data).
  - subst data. repeat constructor; discriminate.
  - subst data. repeat constructor; discriminate.
Defined.

Lemma pastedData_fixed_points_witness :
  pastedData (js "one two" ++ [LF; LF] ++ js "three")
  = js "one two" ++ [LF; LF] ++ js "three".
Proof.
  apply (proj2 (pastedData_fixed_points (js "one two" ++ [LF; LF] ++ js "three"))).
  simpl. unfold isolated, paired, trimmed. simpl.
  repeat split; try lia; try reflexivity; try discriminate;
    repeat constructor; discriminate.
Defined.

(* ================================================================== *)
(** * Further properties: what the handlers leave alone *)
(* ================================================================== *)

(** Case analysis on every test of a handler that has returned. *)
Ltac handler_cases H :=
  repeat match type of H with
         | context [match ?x with _ => _ end] =>
             destruct x eqn:?; try discriminate H
         end.

Lemma setCaret_frame (p : list nat) (offset : Z) (st st' : state) :
  setCaret p offset st = Returns st' ->
  tree st' = tree st /\ targetText st' = targetText st.
Proof.
  unfold setCaret. intros H. handler_cases H. by injection H as <-.
Qed.

Lemma handleAutocorrect_frame (key : list N) (contentToCopy : option (list N))
    (writer : list nat) (addSpace : bool) (st st' : state) (handled : bool) :
  handleAutocorrect key contentToCopy writer addSpace st
    = Returns (handled, st') ->
  targetText st' = targetText st /\ (handled = false -> st' = st).
Proof.
  unfold handleAutocorrect. intros H. cbv zeta in H.
  handler_cases H;
    try (injection H as <- <-; by split);
    try (match goal with
         | E : setCaret _ _ _ = Returns _ |- _ =>
             apply setCaret_frame in E as [_ E];
             injection H as <- <-; split; [exact E|discriminate]
         end).
Qed.

Lemma handleIgnorePunctuation_frame (key : list N)
    (contentToCopy : option (list N)) (writer : list nat) (st st' : state)
    (handled : bool) :
  handleIgnorePunctuation key contentToCopy writer st
    = Returns (handled, st') ->
  targetText st' = targetText st /\ (handled = false -> st' = st).
Proof.
  unfold handleIgnorePunctuation. intros H. cbv zeta in H.
  handler_cases H;
    try (injection H as <- <-; by split);
    try (match goal with
         | E : setCaret _ _ _ = Returns _ |- _ =>
             apply setCaret_frame in E as [_ E];
             injection H as <- <-; split; [exact E|discriminate]
         end).
Qed.

(** Whatever [handleAutocorrect] returns, it has left the target text
    alone; when it returns false it has changed nothing at all, neither
    the document nor the selection. *)
Theorem handleAutocorrect_false_unchanged (key : list N)
    (contentToCopy : option (list N)) (writer : list nat) (addSpace : bool)
    (st st' : state) (handled : bool) :
  handleAutocorrect key contentToCopy writer addSpace st
    = Returns (handled, st') ->
  targetText st' = targetText st /\ (handled = false -> st' = st).
Proof. apply handleAutocorrect_frame. Qed.

Lemma handleAutocorrect_false_unchanged_witness :
  let st := State (Element [Text (js "the")])
              (Some (Some (Range [0%nat] 3))) (Some (js "the quick")) in
  targetText st = targetText st /\ (false = false -> st = st).
Proof.
  intros st.
  apply (handleAutocorrect_false_unchanged [SPACE] (Some (js "the quick")) []
           true st st false).
  reflexivity.
Defined.

(** Whatever [handleIgnorePunctuation] returns, it has left the target
    text alone; when it returns false it has changed nothing at all. *)
Theorem handleIgnorePunctuation_false_unchanged (key : list N)
    (contentToCopy : option (list N)) (writer : list nat) (st st' : state)
    (handled : bool) :
  handleIgnorePunctuation key contentToCopy writer st
    = Returns (handled, st') ->
  targetText st' = targetText st /\ (handled = false -> st' = st).
Proof. apply handleIgnorePunctuation_frame. Qed.

Lemma handleIgnorePunctuation_false_unchanged_witness :
  let st := State (Element [Text (js "a")])
              (Some (Some (Range [0%nat] 1))) (Some (js "ab")) in
  targetText st = targetText st /\ (false = false -> st = st).
Proof.
  intros st.
  apply (handleIgnorePunctuation_false_unchanged (js ";") (Some (js "ab")) []
           st st false).
  reflexivity.
Defined.

(** How a keydown can end.  The handler never replaces the target text;
    a key that it lets through (default action not prevented) has
    changed neither the document nor the selection; the text it asks to
    insert on Enter is one newline or two. *)
Theorem onKeydown_outcomes (contentToCopy : option (list N))
    (writer : list nat) (opts : settings) (innerText : list N)
    (e : keyEvent) (st : state) :
  match onKeydown contentToCopy writer opts innerText e st with
  | Handled prevented st' =>
      targetText st' = targetText st /\ (prevented = false -> st' = st)
  | InsertTextAtCursor text st' =>
      targetText st' = targetText st /\ (text = [LF] \/ text = [LF; LF])
  | Raises => True
  end.
Proof.
  unfold onKeydown.
  destruct (truthy contentToCopy) as [target|]; [|done].
  destruct (key_dontstealfocus e); [done|].
  destruct (metaKey e || altKey e || ctrlKey e); [done|].
  destruct (node_at (tree st) writer); [|done].
  destruct (str_eqb (key e) (js "Enter")).
  - destruct (windowSelection st) as [[r|]|]; [|done|done].
    destruct (if path_eqb (startContainer r) writer
              then lastChild (tree st) writer
              else Some (startContainer r)) as [currentNode|]; [|done].
    cbv zeta.
    set (corrected := if autocorrect opts then _ else _).
    assert (match corrected with
            | Returns (_, st1) => targetText st1 = targetText st
            | Throws => True
            end) as Hcorrected.
    { subst corrected. destruct (autocorrect opts); [|done].
      destruct (len (trim _) >? 0); [|done].
      destruct (handleAutocorrect _ _ _ _ _) as [[b st1]|] eqn:E; [|done].
      by apply handleAutocorrect_frame in E as [E _]. }
    destruct corrected as [[b st1]|]; [|done].
    destruct (str_eqb _ [LF; LF]); split; auto.
  - set (blocked := if str_eqb (key e) [SPACE] then _ else _).
    destruct blocked as [[|]|]; [done| |done].
    set (punctuated := if ignore_punctuation opts then _ else _).
    assert (match punctuated with
            | Returns (b, st1) =>
                targetText st1 = targetText st /\ (b = false -> st1 = st)
            | Throws => True
            end) as Hpunctuated.
    { subst punctuated. destruct (ignore_punctuation opts); [|done].
      destruct (handleIgnorePunctuation _ _ _ _) as [[b st1]|] eqn:E; [|done].
      by apply handleIgnorePunctuation_frame in E. }
    destruct punctuated as [[[|] st1]|]; [by destruct Hpunctuated| |done].
    destruct Hpunctuated as [_ Hsame]. rewrite (Hsame eq_refl).
    destruct (autocorrect opts && str_eqb (key e) [SPACE]); [|done].
    destruct (handleAutocorrect _ _ _ _ _) as [[[|] st2]|] eqn:E; [| |done];
      by apply handleAutocorrect_frame in E.
Qed.

(* ================================================================== *)
(** * Further properties: the keydown handler *)
(* ================================================================== *)

Lemma str_eqb_length (a b : list N) :
  length a <> length b -> str_eqb a b = false.
Proof.
  intros Hne. destruct (str_eqb a b) eqn:E; [|done].
  apply str_eqb_eq in E. by subst.
Qed.

Lemma length_substring (t : list N) (a b : Z) :
  a <= b ->
  Z.of_nat (length (substring t a b)) = clamp 0 (len t) b - clamp 0 (len t) a.
Proof.
  intros Hab. unfold substring, clamp, len.
  rewrite length_take, length_drop. lia.
Qed.

Lemma substring_two (t : list N) (position : Z) (c : N) :
  str_eqb (substring t position (position + 2)) [c; c] =
  at_is t position c && at_is t (position + 1) c.
Proof.
  pose proof (length_substring t position (position + 2) ltac:(lia)) as Hlen.
  unfold clamp, len in Hlen. unfold at_is.
  destruct (Z.ltb_spec position 0) as [Hneg|Hpos].
  - rewrite (at_index_negative t position Hneg). simpl.
    apply str_eqb_length. simpl. lia.
  - destruct (Z.ltb_spec (Z.of_nat (length t)) (position + 2)) as [Hshort|Hlong].
    + rewrite (at_index_nat t (position + 1)) by lia.
      rewrite (lookup_ge_None_2 t (Z.to_nat (position + 1))) by lia.
      rewrite andb_false_r. apply str_eqb_length. simpl. lia.
    + rewrite !at_index_nat by lia.
      destruct (lookup_lt_is_Some_2 t (Z.to_nat position) ltac:(lia)) as [x Hx].
      destruct (lookup_lt_is_Some_2 t (Z.to_nat (position + 1)) ltac:(lia))
        as [y Hy].
      rewrite Hx, Hy.
      unfold substring, clamp, len.
      replace (Z.min (Z.max position 0) (Z.of_nat (length t))) with position
        by lia.
      replace (Z.min (Z.max (position + 2) 0) (Z.of_nat (length t)))
        with (position + 2) by lia.
      rewrite Z.min_l, Z.max_r by lia.
      replace (Z.to_nat (position + 2 - position)) with 2%nat by lia.
      rewrite (drop_S _ _ _ Hx).
      replace (Z.to_nat (position + 1)) with (S (Z.to_nat position)) in Hy by lia.
      rewrite (drop_S _ _ _ Hy). simpl. by rewrite andb_true_r.
Qed.





(* ================================================================== *)
(** * Further properties: the correction engines keep the alignment *)
(* ================================================================== *)

Lemma slice_beyond (s : list N) (k : Z) : len s <= k -> slice s k None = [].
Proof.
  intros Hk. unfold slice, relative, len in *.
  destruct (Z.ltb_spec k 0); [lia|].
  rewrite Z.min_r by lia. rewrite Z.sub_diag. by rewrite take_0.
Qed.

Lemma slice_middle (s : list N) (a b : Z) :
  0 <= a <= b -> b <= len s ->
  slice s a (Some b) = take (Z.to_nat b - Z.to_nat a) (drop (Z.to_nat a) s).
Proof.
  intros Ha Hb. unfold slice, relative, len in *.
  destruct (Z.ltb_spec a 0); [lia|]. destruct (Z.ltb_spec b 0); [lia|].
  rewrite !Z.min_l by lia. f_equal. lia.
Qed.

(** Autocorrect brings the writer back onto the target.  The writer
    holds a single text node with the caret at its end, the text is not
    longer than the target, and what stands before the word being typed
    agrees with the target.  When [handleAutocorrect] (with
    [addSpace = true]) returns true, the text node holds exactly a prefix
    of the target: the target up to the end of the word, and the space
    that follows the word when the word is not the last one; the caret
    is at the end of that prefix. *)
Theorem handleAutocorrect_restores_prefix (key target : list N)
    (writer : list nat) (st st' : state) (data : list N) :
  node_at (tree st) writer = Some (Element [Text data]) ->
  windowSelection st = Some (Some (Range (writer ++ [0%nat]) (len data))) ->
  len data <= len target ->
  let start := getPreviousSpace data (Some (len data)) in
  let end_ := getNextSpace target (len data) in
  take (Z.to_nat start) data = take (Z.to_nat start) target ->
  handleAutocorrect key (Some target) writer true st = Returns (true, st') ->
  let corrected :=
    take (Z.to_nat (if end_ <? len target then end_ + 1 else end_)) target in
  node_at (tree st') writer = Some (Element [Text corrected]) /\
  windowSelection st' =
    Some (Some (Range (writer ++ [0%nat]) (len corrected))) /\
  len data <= len corrected.
Proof.
  intros Hw Hsel Hlen start end_ Hprefix H corrected.
  assert (truthy (Some target) = Some target) as Htarget.
  { destruct target; [discriminate H|reflexivity]. }
  assert (node_at (tree st) (writer ++ [0%nat]) = Some (Text data)) as Hchild.
  { rewrite node_at_app, Hw. reflexivity. }
  assert (textContent_at (tree st) writer = data) as Htext.
  { unfold textContent_at. rewrite Hw. simpl. apply app_nil_r. }
  destruct (getPreviousSpace_facts data (len data)) as (Hstart & _ & _ & _).
  fold start in Hstart.
  pose proof (getNextSpace_range target (len data)) as Hend.
  destruct (getNextSpace_facts target (len data)) as (Hspace & _ & Hge).
  fold end_ in Hend, Hspace, Hge. specialize (Hge Hlen).
  unfold handleAutocorrect in H. rewrite Htarget, Hsel in H.
  cbn [startContainer startOffset] in H.
  rewrite (path_eqb_neq _ _ (snoc_neq writer 0%nat)) in H.
  cbv zeta in H.
  rewrite Htext, (getTextPosition_only_child _ _ _ _ Hw), Hw in H.
  fold start in H. fold end_ in H.
  destruct (str_eqb _ _); [done|].
  destruct (_ && _); [|done].
  simpl childNodes in H. simpl andb in H.
  cbn [handleAutocorrect_loop textContent] in H.
  destruct (Z.geb_spec (0 + len data) start); [|lia].
  set (sp := end_ <? len target) in *.
  rewrite !Z.sub_0_r in H.
  rewrite (slice_prefix data start) in H by lia.
  rewrite (slice_beyond data end_) in H by lia.
  rewrite (slice_middle target start end_) in H by lia.
  rewrite Hprefix, app_nil_r in H.
  set (word := take (Z.to_nat end_ - Z.to_nat start) (drop (Z.to_nat start) target)) in *.
  assert (take (Z.to_nat start) target ++ word
            ++ (if sp then [SPACE] else [])
          = corrected) as Hnew.
  { rewrite app_assoc. subst word. rewrite take_take_drop.
    replace (Z.to_nat start + (Z.to_nat end_ - Z.to_nat start))%nat
      with (Z.to_nat end_) by lia.
    subst corrected sp. destruct (Z.ltb_spec end_ (len target)).
    - destruct Hspace as [Heq|Hat]; [lia|].
      rewrite at_index_nat in Hat by lia.
      replace (Z.to_nat (end_ + 1)) with (S (Z.to_nat end_)) by lia.
      by rewrite (take_S_r _ _ _ Hat).
    - by rewrite app_nil_r. }
  rewrite Hnew in H.
  assert (len corrected = (if sp then end_ + 1 else end_)) as Hlc.
  { subst corrected sp. unfold len in *. rewrite length_take.
    destruct (Z.ltb_spec end_ (Z.of_nat (length target))); lia. }
  assert (start - 0 + len word + (if sp then 1 else 0) = len corrected) as Hpos.
  { rewrite Hlc. subst word. unfold len in *.
    rewrite length_take, length_drop. destruct sp; lia. }
  rewrite Z.sub_0_r in Hpos. rewrite Hpos in H.
  rewrite Z.min_id in H.
  unfold setCaret in H. cbn [tree windowSelection targetText] in H.
  rewrite (node_at_update_same _ _ _ _ Hchild) in H.
  cbn [set_textContent node_length] in H.
  destruct ((len corrected <? 0) || (len corrected >? len corrected)) eqn:Hr;
    [done|].
  injection H as <-. cbn [tree windowSelection].
  split; [|split; [done|]].
  - by rewrite (node_at_update_app _ _ _ _ _ Hw).
  - rewrite Hlc. destruct sp; lia.
Qed.

Lemma handleAutocorrect_restores_prefix_witness :
  let target := js "the quick fox" in
  let st := State (Element [Text (js "the qiuck")])
              (Some (Some (Range [0%nat] 9))) (Some target) in
  let st' := State (Element [Text (js "the quick ")])
               (Some (Some (Range [0%nat] 10))) (Some target) in
  node_at (tree st') [] = Some (Element [Text (js "the quick ")]).
Proof.
  intros target st st'.
  apply (handleAutocorrect_restores_prefix [SPACE] target [] st st'
           (js "the qiuck") eq_refl eq_refl
           ltac:(vm_compute; discriminate) eq_refl eq_refl).
Defined.

(** [handleIgnorePunctuation] leaves ordinary typing alone: for a key
    made of ASCII letters and digits only (a letter, a digit, a named key
    such as Enter, Shift or Backspace), for the space key, and when there
    is no target text, it returns false at once, without reading the
    selection and without changing anything. *)
Theorem handleIgnorePunctuation_ordinary_key (key : list N)
    (contentToCopy : option (list N)) (writer : list nat) (st : state) :
  Forall (fun c => isAlphanumeric c = true) key \/ key = [SPACE]
  \/ truthy contentToCopy = None ->
  handleIgnorePunctuation key contentToCopy writer st = Returns (false, st).
Proof.
  intros Hcase. unfold handleIgnorePunctuation.
  destruct (truthy contentToCopy) as [target|] eqn:Htarget; [|done].
  destruct Hcase as [Halnum|[->|Hnone]]; [|done|done].
  assert (NotAlphanumericRegex_test key = false) as ->; [|done].
  unfold NotAlphanumericRegex_test.
  induction Halnum as [|c key Hc _ IH]; simpl; [done|].
  by rewrite Hc, IH.
Qed.

Lemma handleIgnorePunctuation_ordinary_key_witness :
  let st := State (Element []) (Some None) (Some (js "a,b")) in
  handleIgnorePunctuation (js "Backspace") (Some (js "a,b")) [] st
  = Returns (false, st).
Proof.
  intros st.
  apply (handleIgnorePunctuation_ordinary_key (js "Backspace")
           (Some (js "a,b")) [] st).
  left. repeat constructor.
Defined.

(** What [handleIgnorePunctuation] does to a text node when it returns
    true. *)
Lemma handleIgnorePunctuation_insert (key target : list N)
    (writer : list nat) (st st' : state) (r : range) (data : list N) :
  windowSelection st = Some (Some r) ->
  let node := punctuationNode writer st r in
  let index := punctuationIndex writer st r in
  node_at (tree st) node = Some (Text data) ->
  index <= len data ->
  handleIgnorePunctuation key (Some target) writer st = Returns (true, st') ->
  exists letter : N,
    0 <= index /\
    getCurrentLine target (tree st) node !! Z.to_nat index = Some letter /\
    let new := take (Z.to_nat index) data ++ letter :: drop (Z.to_nat index) data in
    node_at (tree st') node = Some (Text new) /\
    windowSelection st' = Some (Some (Range node (index + 1))).
Proof.
  intros Hsel node index Hnode Hindex H.
  unfold handleIgnorePunctuation in H.
  destruct (truthy (Some target)) as [target'|] eqn:Htarget; [|done].
  assert (target' = target) as ->.
  { destruct target; simpl in Htarget; congruence. }
  destruct (negb (NotAlphanumericRegex_test key) || str_eqb key [SPACE]); [done|].
  rewrite Hsel in H.
  fold (punctuationNode writer st r) in H. fold node in H.
  fold (punctuationIndex writer st r) in H. fold index in H.
  destruct (getCurrentLine target (tree st) node) as [|l0 line] eqn:Hline; [done|].
  destruct (at_index (l0 :: line) index) as [letter|] eqn:Hletter; [|done].
  destruct (negb (NotAlphanumericRegex_test [letter]) || char_eqb letter LF);
    [done|].
  assert (0 <= index) as Hpos.
  { unfold at_index in Hletter. destruct (Z.ltb_spec index 0); [done|lia]. }
  rewrite at_index_nat in Hletter by done.
  unfold textContent_at in H. rewrite Hnode in H. simpl textContent in H.
  rewrite slice_prefix, slice_suffix in H by lia.
  set (new := take (Z.to_nat index) data ++ [letter] ++ drop (Z.to_nat index) data) in *.
  assert (len new = len data + 1) as Hlen.
  { subst new. unfold len. rewrite !length_app, length_take, length_drop.
    simpl. unfold len in Hindex. lia. }
  unfold setCaret in H. simpl tree in H.
  rewrite (node_at_update_same _ _ _ _ Hnode) in H. simpl in H.
  destruct ((Z.min (index + 1) (len new) <? 0)
            || (Z.min (index + 1) (len new) >? len new)); [done|].
  injection H as <-. simpl.
  exists letter. split; [done|]. split; [done|]. split.
  - by rewrite (node_at_update_same _ _ _ _ Hnode).
  - do 3 f_equal. lia.
Qed.

(** Punctuation auto-insert keeps the typed text on the target line: if
    the text node agrees with the current target line up to the caret,
    then after the insertion it agrees with the line up to the new caret,
    one character further. *)
Theorem handleIgnorePunctuation_keeps_prefix (key target : list N)
    (writer : list nat) (st st' : state) (r : range) (data : list N) :
  windowSelection st = Some (Some r) ->
  let node := punctuationNode writer st r in
  let index := punctuationIndex writer st r in
  let line := getCurrentLine target (tree st) node in
  node_at (tree st) node = Some (Text data) ->
  index <= len data ->
  take (Z.to_nat index) data = take (Z.to_nat index) line ->
  handleIgnorePunctuation key (Some target) writer st = Returns (true, st') ->
  exists new : list N,
    node_at (tree st') node = Some (Text new) /\
    take (Z.to_nat (index + 1)) new = take (Z.to_nat (index + 1)) line /\
    windowSelection st' = Some (Some (Range node (index + 1))).
Proof.
  intros Hsel node index line Hnode Hindex Hprefix H.
  destruct (handleIgnorePunctuation_insert _ _ _ _ _ _ _ Hsel Hnode Hindex H)
    as (letter & Hpos & Hletter & Hnew & Hcaret).
  fold node index line in Hletter, Hnew, Hcaret.
  eexists. split; [exact Hnew|]. split; [|done].
  replace (Z.to_nat (index + 1)) with (S (Z.to_nat index)) by lia.
  rewrite (take_S_r _ _ _ Hletter), <- Hprefix.
  rewrite (cons_middle letter), app_assoc.
  apply take_app_length'. rewrite length_app, length_take.
  unfold len in Hindex. simpl. lia.
Qed.

Lemma handleIgnorePunctuation_keeps_prefix_witness :
  let st := State (Element [Text (js "wait")])
              (Some (Some (Range [0%nat] 4))) (Some (js "wait, what")) in
  let st' := State (Element [Text (js "wait,")])
               (Some (Some (Range [0%nat] 5))) (Some (js "wait, what")) in
  exists new : list N,
    node_at (tree st') [0%nat] = Some (Text new) /\
    take 5 new = js "wait,".
Proof.
  intros st st'.
  destruct (handleIgnorePunctuation_keeps_prefix (js ".") (js "wait, what") []
              st st' (Range [0%nat] 4) (js "wait")
              eq_refl eq_refl ltac:(vm_compute; discriminate) eq_refl eq_refl)
    as (new & Hnew & Htake & _).
  exists new. split; [exact Hnew|exact Htake].
Defined.

(* ================================================================== *)
(** * Further properties: click-to-jump *)
(* ================================================================== *)

Lemma getWordStartPosition_loop_Returns (words : list (list N)) (count : nat)
    (position p : Z) :
  getWordStartPosition_loop words count position = Returns p ->
  (count <= length words)%nat /\
  p = position + sum_lengths (take count words).
Proof.
  revert words position. induction count as [|count IH]; intros words position.
  - simpl. intros [= <-]. unfold sum_lengths. simpl. split; lia.
  - destruct words as [|w words]; simpl; [done|].
    intros H. apply IH in H as [Hle ->]. unfold sum_lengths. simpl.
    split; lia.
Qed.

Lemma getWordStartPosition_loop_Throws (words : list (list N)) (count : nat)
    (position : Z) :
  (length words < count)%nat ->
  getWordStartPosition_loop words count position = Throws.
Proof.
  revert words position. induction count as [|count IH]; intros words position.
  - lia.
  - destruct words as [|w words]; simpl; [done|].
    intros H. apply IH. lia.
Qed.

Lemma substring_prefix (t : list N) (p : Z) :
  0 <= p <= len t -> substring t 0 p = take (Z.to_nat p) t.
Proof.
  intros Hp. unfold substring, clamp, len in *.
  replace (Z.min (Z.max 0 0) (Z.of_nat (length t))) with 0 by lia.
  replace (Z.min (Z.max p 0) (Z.of_nat (length t))) with p by lia.
  rewrite Z.min_l, Z.max_r by lia. simpl. by rewrite Z.sub_0_r.
Qed.

Lemma split_ws_prefix (text : list N) (i : nat) :
  (i <= length (split_ws text))%nat ->
  let p := sum_lengths (take i (split_ws text)) in
  0 <= p <= len text /\ substring text 0 p = concat (take i (split_ws text)).
Proof.
  intros Hi p. subst p. rewrite sum_lengths_concat.
  pose proof (concat_split_ws_from false text) as Hcat.
  fold (split_ws text) in Hcat.
  rewrite <- (take_drop i (split_ws text)), concat_app in Hcat.
  set (before := concat (take i (split_ws text))) in *.
  assert (len before <= len text) as Hle.
  { rewrite <- Hcat, len_app. unfold len. lia. }
  split; [unfold len in *; lia|].
  rewrite substring_prefix by (unfold len in *; lia).
  rewrite <- Hcat at 1. unfold len. rewrite Nat2Z.id.
  apply take_app_length.
Qed.

(** Whenever [getWordStartPosition] returns, whatever the clicked element
    carries, the position lies within the text and is a boundary between
    pieces of the split: the text up to it is the concatenation of the
    pieces before some index. *)
Theorem getWordStartPosition_is_boundary (text : list N) (wordElement : element)
    (position : Z) :
  getWordStartPosition text wordElement = Returns position ->
  0 <= position <= len text /\
  exists i : nat,
    (i <= length (split_ws text))%nat /\
    position = sum_lengths (take i (split_ws text)) /\
    substring text 0 position = concat (take i (split_ws text)).
Proof.
  unfold getWordStartPosition. intros H.
  assert (exists i : nat, (i <= length (split_ws text))%nat /\
                          position = sum_lengths (take i (split_ws text)))
    as (i & Hi & ->).
  { destruct (parseInt _) as [n|].
    - apply getWordStartPosition_loop_Returns in H as [Hle ->].
      exists (Z.to_nat n). split; [done|]. lia.
    - injection H as <-. exists 0%nat. split; [lia|]. reflexivity. }
  destruct (split_ws_prefix text i Hi) as [Hrange Hsub].
  split; [done|]. by exists i.
Qed.

Lemma getWordStartPosition_is_boundary_witness :
  0 <= 8 <= len (js "one two three four").
Proof.
  apply (getWordStartPosition_is_boundary (js "one two three four")
           (wordSpan 4) 8).
  reflexivity.
Defined.

(** The edges of [getWordStartPosition]: an element without a
    [data-offset], or with an empty one, gives position 0; an index past
    the number of pieces raises (the read of [words[i].length] fails). *)
Theorem getWordStartPosition_edges (text : list N) :
  (forall (word : bool) (editor focus : option (list N)),
     getWordStartPosition text (Elem word None editor focus) = Returns 0 /\
     getWordStartPosition text (Elem word (Some []) editor focus) = Returns 0) /\
  (forall i : nat,
     (length (split_ws text) < i)%nat ->
     getWordStartPosition text (wordSpan i) = Throws).
Proof.
  split.
  - intros word editor focus. split; reflexivity.
  - intros i Hi. unfold getWordStartPosition, wordSpan. simpl dataset_offset.
    destruct (toString i) as [|c o] eqn:E.
    + by apply toString_not_empty in E.
    + rewrite <- E, parseInt_toString, Nat2Z.id.
      by apply getWordStartPosition_loop_Throws.
Qed.

Lemma getWordStartPosition_edges_witness :
  getWordStartPosition (js "one two") (wordSpan 4) = Throws.
Proof.
  apply (proj2 (getWordStartPosition_edges (js "one two")) 4%nat).
  simpl. lia.
Defined.

(** Clicking a rendered word rewinds the writer to that word.  For every
    target, every piece index carried by the clicked span and every
    state in which the writer is mounted and the window has a selection:
    when the text before the piece holds no markup, the writer's children
    are replaced by that text as a single text node (by nothing when the
    text is empty), the caret is put at the end of the writer, the
    default action is prevented and the target is untouched. *)
Theorem onClick_word_rewinds (text : list N) (i : nat) (writer : list nat)
    (st : state) (w : node) (sel : option range) :
  text <> [] ->
  (i <= length (split_ws text))%nat ->
  let before := concat (take i (split_ws text)) in
  plainText before = true ->
  node_at (tree st) writer = Some w ->
  windowSelection st = Some sel ->
  let children := match before with [] => [] | _ :: _ => [Text before] end in
  let tree' := update_at (tree st) writer (fun _ => Element children) in
  onClick (Some text) writer (wordSpan i) st =
    Some (Returns (true,
            State tree'
              (Some (Some (Range writer (Z.of_nat (length children)))))
              (targetText st))) /\
  textContent_at tree' writer = before.
Proof.
  intros Htext Hi before Hplain Hw Hsel children tree'.
  assert (node_at tree' writer = Some (Element children)) as Hnew.
  { subst tree'. by rewrite (node_at_update_same _ _ _ _ Hw). }
  split.
  - unfold onClick.
    assert (truthy (Some text) = Some text) as -> by by destruct text.
    rewrite Hw. change (isWord (wordSpan i)) with true. cbv iota.
    rewrite (getWordStartPosition_wordSpan text i Hi).
    destruct (split_ws_prefix text i Hi) as [_ ->]. fold before.
    unfold parseFragment. rewrite Hplain. fold children. cbv zeta. fold tree'.
    unfold caretToEnd. cbn [windowSelection tree targetText].
    by rewrite Hsel, Hnew.
  - unfold textContent_at. rewrite Hnew. subst children.
    destruct before; simpl; [done|]. by rewrite app_nil_r.
Qed.

Lemma onClick_word_rewinds_witness :
  onClick (Some (js "a bc  d")) [] (wordSpan 4)
    (State (Element [Text (js "a x")]) (Some None) (Some (js "a bc  d"))) =
  Some (Returns (true,
          State (Element [Text (js "a bc  ")])
            (Some (Some (Range [] 1))) (Some (js "a bc  d")))).
Proof.
  apply (onClick_word_rewinds (js "a bc  d") 4 []
           (State (Element [Text (js "a x")]) (Some None) (Some (js "a bc  d")))
           (Element [Text (js "a x")]) None).
  - discriminate.
  - simpl. lia.
  - reflexivity.
  - reflexivity.
  - reflexivity.
Defined.

(** What a click leaves alone.  A click never replaces the target text;
    it prevents the default action only on a rendered word; off a word it
    never changes the document, and on an element marked as editor
    chrome or as not stealing the focus it changes nothing at all. *)
Theorem onClick_frame (contentToCopy : option (list N)) (writer : list nat)
    (target : element) (st st' : state) (prevented : bool) :
  onClick contentToCopy writer target st = Some (Returns (prevented, st')) ->
  targetText st' = targetText st /\
  (prevented = true -> isWord target = true) /\
  (isWord target = false -> tree st' = tree st) /\
  (isWord target = false ->
   isTruthy (dataset_editor target)
   || isTruthy (dataset_dontstealfocus target) = true ->
   st' = st).
Proof.
  unfold onClick, caretToEnd. intros H.
  handler_cases H; injection H as <- <-; simpl;
    repeat split; try done; try congruence.
Qed.

Lemma onClick_frame_witness :
  let st := State (Element [Text (js "ab")])
              (Some (Some (Range [0%nat] 1))) (Some (js "ab cd")) in
  tree (State (Element [Text (js "ab")]) (Some (Some (Range [] 1)))
          (Some (js "ab cd"))) = tree st.
Proof.
  intros st.
  apply (onClick_frame (Some (js "ab cd")) [] (Elem false None None None) st
           (State (Element [Text (js "ab")]) (Some (Some (Range [] 1)))
              (Some (js "ab cd"))) false eq_refl).
  reflexivity.
Defined.

(* ================================================================== *)
(** * Further properties: pieces and lines *)
(* ================================================================== *)

Lemma alternating_cons_head (ws : bool) (x : N) (ps : list (list N)) :
  isWhiteSpace x = ws -> alternating ws ps -> alternating ws (cons_head x ps).
Proof.
  intros Hx. destruct ps as [|p ps]; simpl; [done|].
  intros [Hp Hps]. split; [by constructor|done].
Qed.

Lemma split_ws_from_alternating (inws : bool) (s : list N) :
  alternating inws (split_ws_from inws s).
Proof.
  revert inws. induction s as [|x s IH]; intros inws; simpl.
  - destruct inws; simpl; repeat split; constructor.
  - destruct (Bool.eqb (isWhiteSpace x) inws) eqn:E.
    + apply eqb_prop in E. by apply alternating_cons_head.
    + simpl. split; [constructor|].
      assert (isWhiteSpace x = negb inws) as Hx.
      { destruct (isWhiteSpace x), inws; simpl in *; congruence. }
      pose proof (alternating_cons_head _ x _ Hx (IH (negb inws))) as H.
      destruct (cons_head x (split_ws_from (negb inws) s)); [done|exact H].
Qed.

Lemma alternating_lookup (ws : bool) (ps : list (list N)) (i : nat)
    (p : list N) :
  alternating ws ps -> ps !! i = Some p ->
  Forall (fun c => isWhiteSpace c = xorb ws (Nat.odd i)) p.
Proof.
  revert ws i. induction ps as [|q ps IH]; intros ws i; simpl; [done|].
  intros [Hq Hps]. destruct i as [|i]; simpl.
  - intros [= <-]. by rewrite xorb_false_r.
  - intros Hp. destruct ps as [|q' ps']; [done|].
    rewrite Nat.odd_succ, <- Nat.negb_odd.
    replace (xorb ws (negb (Nat.odd i))) with (xorb (negb ws) (Nat.odd i))
      by (by destruct ws, (Nat.odd i)).
    by apply (IH (negb ws) i).
Qed.

Lemma alternating_length (ws : bool) (ps : list (list N)) :
  alternating ws ps -> Nat.odd (length ps) = negb ws.
Proof.
  revert ws. induction ps as [|q ps IH]; intros ws; simpl; [done|].
  intros [_ Hps]. destruct ps as [|q' ps'].
  - by subst ws.
  - rewrite Nat.odd_succ, <- Nat.negb_odd, (IH _ Hps). by destruct ws.
Qed.

Lemma split_ws_from_separator (inws : bool) (s : list N) (i : nat)
    (p : list N) :
  split_ws_from inws s !! i = Some p ->
  xorb inws (Nat.odd i) = true ->
  (i = 0%nat /\ inws = true) \/ p <> [].
Proof.
  revert inws i. induction s as [|x s IH]; intros inws i; simpl.
  - destruct inws, i as [|[|i]]; simpl; try done; intros _ _; by left.
  - destruct (Bool.eqb (isWhiteSpace x) inws).
    + destruct (split_ws_from inws s) as [|q ps] eqn:E; simpl.
      * destruct i; [|done]. intros [= <-] _. by right.
      * destruct i as [|i]; simpl.
        -- intros [= <-] _. by right.
        -- intros Hp Hodd.
           destruct (IH inws (S i)) as [[? _]|Hne]; try done.
           ++ by rewrite E.
           ++ by right.
    + destruct i as [|i]; simpl.
      * intros [= <-]. rewrite xorb_false_r. intros ->. by left.
      * rewrite Nat.odd_succ, <- Nat.negb_odd.
        replace (xorb inws (negb (Nat.odd i)))
          with (xorb (negb inws) (Nat.odd i))
          by (by destruct inws, (Nat.odd i)).
        destruct (split_ws_from (negb inws) s) as [|q ps] eqn:E; simpl.
        -- destruct i; [|done]. intros [= <-] _. by right.
        -- destruct i as [|i]; simpl.
           ++ intros [= <-] _. by right.
           ++ intros Hp Hodd.
              destruct (IH (negb inws) (S i)) as [[? _]|Hne]; try done.
              ** by rewrite E.
              ** by right.
Qed.

Lemma trim_whitespace (p : list N) :
  Forall (fun c => isWhiteSpace c = true) p -> trim p = [].
Proof.
  intros Hp. unfold trim.
  assert (trimStart p = []) as ->; [|done].
  induction Hp as [|c p Hc _ IH]; simpl; [done|]. by rewrite Hc.
Qed.

(** The split that [wrapWordsInSpans] and [getWordStartPosition] share.
    For every text the number of pieces is odd; the pieces at even
    indices hold no whitespace, those at odd indices are non-empty runs
    of whitespace.  Hence the pieces that [wrapWordsInSpans] wraps in a
    span, those that are not blank, stand at even indices: every
    [data-offset] rendered is even. *)
Theorem split_ws_alternates (text : list N) :
  Nat.odd (length (split_ws text)) = true /\
  forall (i : nat) (p : list N),
    split_ws text !! i = Some p ->
    (Nat.even i = true -> Forall (fun c => isWhiteSpace c = false) p) /\
    (Nat.odd i = true ->
     p <> [] /\ Forall (fun c => isWhiteSpace c = true) p) /\
    ((len (trim p) =? 0) = false -> Nat.even i = true).
Proof.
  pose proof (split_ws_from_alternating false text) as Halt.
  fold (split_ws text) in Halt.
  split; [apply (alternating_length _ _ Halt)|].
  intros i p Hp.
  pose proof (alternating_lookup _ _ _ _ Halt Hp) as Hall. simpl in Hall.
  split; [|split].
  - intros Heven. rewrite <- Nat.negb_even, Heven in Hall. exact Hall.
  - intros Hodd. rewrite Hodd in Hall. split; [|exact Hall].
    destruct (split_ws_from_separator false text i p Hp) as [[_ ?]|Hne];
      try done.
  - intros Hblank. destruct (Nat.even i) eqn:Heven; [done|].
    rewrite <- Nat.negb_even, Heven in Hall. simpl in Hall.
    rewrite (trim_whitespace p Hall) in Hblank. discriminate Hblank.
Qed.

Lemma split_ws_alternates_witness :
  Forall (fun c => isWhiteSpace c = true) (js "  ").
Proof.
  apply (proj2 (split_ws_alternates (js "one  two")) 1%nat (js "  ") eq_refl).
  reflexivity.
Defined.

Lemma split_char_pieces (c : N) (s : list N) :
  Forall (fun p => Forall (fun x => x <> c) p) (split_char c s).
Proof.
  induction s as [|x s IH]; simpl; [by repeat constructor|].
  destruct (char_eqb x c) eqn:E.
  - by constructor.
  - destruct (split_char c s) as [|p ps]; simpl.
    + repeat constructor. intros ->. by rewrite char_eqb_refl in E.
    + inversion_clear IH as [|? ? Hp Hps]. constructor; [|done].
      constructor; [|done]. intros ->. by rewrite char_eqb_refl in E.
Qed.

(** [getCurrentLine] returns the empty string or one of the lines of the
    target, and never a text that holds a newline: the test
    [letter === '\n'] of [handleIgnorePunctuation] can never hold. *)
Theorem getCurrentLine_is_line (contentToCopy : list N) (doc : node)
    (node : list nat) :
  let line := getCurrentLine contentToCopy doc node in
  (line = [] \/ In line (split_char LF contentToCopy)) /\
  Forall (fun x => x <> LF) line.
Proof.
  intros line. subst line. unfold getCurrentLine.
  destruct contentToCopy as [|c s]; [split; [by left|constructor]|].
  set (lines := split_char LF (c :: s)).
  destruct (_ <? 0); [split; [by left|constructor]|].
  destruct (lines !! _) as [l|] eqn:E; simpl; [|split; [by left|constructor]].
  pose proof (split_char_pieces LF (c :: s)) as Hall. fold lines in Hall.
  apply list_elem_of_lookup_2 in E.
  split; [right; by apply list_elem_of_In|].
  rewrite List.Forall_forall in Hall. apply Hall. by apply list_elem_of_In.
Qed.

Lemma getCurrentLineIndex_loop_bounds (childNodes : list node) (self i : nat)
    (lineIndex offset : Z) (lastChild : option node) :
  0 <= offset ->
  match lastChild with
  | None => offset <= lineIndex
  | Some _ => offset < lineIndex
  end ->
  (i <= self)%nat ->
  0 <= getCurrentLineIndex_loop childNodes self i lineIndex offset lastChild
    <= lineIndex + Z.of_nat (self - i).
Proof.
  revert i lineIndex offset lastChild.
  induction childNodes as [|child rest IH];
    intros i lineIndex offset lastChild Hoff Hlast Hi; simpl.
  - destruct lastChild; lia.
  - set (offset' := if _ && _ then offset + 1 else offset).
    assert (offset <= offset' <= offset + 1) as Hstep.
    { subst offset'. destruct (_ && _); lia. }
    assert (offset' <= lineIndex) as Hle.
    { subst offset'. destruct lastChild as [l|].
      - destruct (_ && _); lia.
      - rewrite andb_false_r. lia. }
    destruct (Nat.eqb_spec i self) as [->|Hne].
    + lia.
    + specialize (IH (S i) (lineIndex + 1) offset' (Some child)).
      simpl in IH. specialize (IH ltac:(lia) ltac:(lia) ltac:(lia)).
      replace (lineIndex + Z.of_nat (self - i))
        with (lineIndex + 1 + Z.of_nat (self - S i)) by lia.
      exact IH.
Qed.

Lemma getCurrentLineIndex_loop_plain (childNodes : list node) (self i : nat)
    (lineIndex offset : Z) (lastChild : option node) :
  Forall (fun c => textContent c <> [LF]) childNodes ->
  (i <= self < i + length childNodes)%nat ->
  getCurrentLineIndex_loop childNodes self i lineIndex offset lastChild
  = lineIndex + Z.of_nat (self - i) - offset.
Proof.
  intros Hall. revert i lineIndex offset lastChild.
  induction Hall as [|child rest Hchild _ IH];
    intros i lineIndex offset lastChild Hi; simpl in *; [lia|].
  assert (str_eqb (textContent child) [LF] = false) as ->.
  { destruct (str_eqb (textContent child) [LF]) eqn:E; [|done].
    by apply str_eqb_eq in E. }
  simpl. destruct (Nat.eqb_spec i self) as [->|Hne].
  - replace (self - self)%nat with 0%nat by lia. lia.
  - rewrite IH by lia. lia.
Qed.

Lemma getCurrentLineIndex_loop_missing (childNodes : list node) (self i : nat)
    (lineIndex offset : Z) (lastChild : option node) :
  (i + length childNodes <= self)%nat ->
  getCurrentLineIndex_loop childNodes self i lineIndex offset lastChild = 0.
Proof.
  revert i lineIndex offset lastChild.
  induction childNodes as [|c cs IH]; intros i lineIndex offset lastChild Hge;
    simpl in *; [done|].
  destruct (Nat.eqb_spec i self); [lia|]. apply IH. lia.
Qed.

(** The line index of a node is never negative and never exceeds the
    position of the node among its siblings; it is that position when no
    sibling holds exactly one newline.  The root of the tree, and a
    reference that denotes no child, have line index 0. *)
Theorem getCurrentLineIndex_bounds (doc : node) (parent : list nat)
    (self : nat) :
  getCurrentLineIndex doc [] = 0 /\
  0 <= getCurrentLineIndex doc (parent ++ [self]) <= Z.of_nat self /\
  (forall p : node,
     node_at doc parent = Some p ->
     ((length (childNodes p) <= self)%nat ->
      getCurrentLineIndex doc (parent ++ [self]) = 0) /\
     ((self < length (childNodes p))%nat ->
      Forall (fun c => textContent c <> [LF]) (childNodes p) ->
      getCurrentLineIndex doc (parent ++ [self]) = Z.of_nat self)).
Proof.
  split; [reflexivity|].
  unfold getCurrentLineIndex. rewrite rev_app_distr. simpl.
  rewrite rev_involutive. split.
  - destruct (node_at doc parent) as [p|]; [|lia].
    pose proof (getCurrentLineIndex_loop_bounds (childNodes p) self 0 0 0 None)
      as H. simpl in H. specialize (H ltac:(lia) ltac:(lia) ltac:(lia)).
    replace (self - 0)%nat with self in H by lia. exact H.
  - intros p ->. split.
    + intros Hlen. apply getCurrentLineIndex_loop_missing. lia.
    + intros Hlt Hall.
      rewrite (getCurrentLineIndex_loop_plain _ _ _ _ _ _ Hall) by lia.
      replace (self - 0)%nat with self by lia. lia.
Qed.

Lemma getCurrentLineIndex_bounds_witness :
  getCurrentLineIndex
    (Element [Text (js "one"); Text [LF; LF]; Text (js "two")])
    ([] ++ [2%nat]) = 2.
Proof.
  destruct (getCurrentLineIndex_bounds
              (Element [Text (js "one"); Text [LF; LF]; Text (js "two")])
              [] 2%nat) as (_ & _ & H).
  destruct (H (Element [Text (js "one"); Text [LF; LF]; Text (js "two")])
              eq_refl) as [_ Hplain].
  apply Hplain.
  - simpl. lia.
  - repeat constructor; discriminate.
Defined.

(** ** Paragraphs *)

Lemma split_char_no_separator (c : N) (l : list N) :
  Forall (fun x => x <> c) l -> split_char c l = [l].
Proof.
  induction 1 as [|x l Hx _ IH]; simpl; [done|].
  destruct (char_eqb x c) eqn:E; [by apply char_eqb_eq in E|].
  by rewrite IH.
Qed.

Lemma split_char_app (c : N) (l t : list N) :
  Forall (fun x => x <> c) l ->
  split_char c (l ++ c :: t) = l :: split_char c t.
Proof.
  induction 1 as [|x l Hx _ IH]; simpl.
  - by rewrite char_eqb_refl.
  - destruct (char_eqb x c) eqn:E; [by apply char_eqb_eq in E|].
    by rewrite IH.
Qed.

Lemma split_char_paragraphs (l : list N) (lines : list (list N)) (k : nat) :
  Forall (fun x => x <> LF) l ->
  Forall (fun p => Forall (fun x => x <> LF) p) lines ->
  split_char LF (join_paragraphs (l :: lines)) !! (2 * k)%nat
  = (l :: lines) !! k.
Proof.
  revert l k. induction lines as [|l' lines IH]; intros l k Hl Hlines.
  - simpl. rewrite app_nil_r, (split_char_no_separator _ _ Hl).
    by destruct k.
  - inversion_clear Hlines as [|? ? Hl' Hrest].
    cbn [join_paragraphs map concat app].
    rewrite (split_char_app _ _ _ Hl). cbn [split_char].
    rewrite char_eqb_refl.
    destruct k as [|k]; [done|].
    replace (2 * S k)%nat with (S (S (2 * k))) by lia.
    change ((l :: [] :: ?t) !! S (S ?n)) with (t !! n).
    apply (IH l' k Hl' Hrest).
Qed.

(** Line lookup in the paragraph layout.  The target is made of lines
    joined by two newlines (what the paste normalisation produces), and
    the siblings of the node are the typed lines separated by text nodes
    holding the inserted line breaks, none of them exactly one newline.
    Then the line found for the node at sibling position [2 * k] is the
    [k]-th line of the target. *)
Theorem getCurrentLine_paragraph (lines : list (list N)) (k : nat)
    (line : list N) (doc p : node) (parent : list nat) :
  join_paragraphs lines <> [] ->
  Forall (fun l => Forall (fun x => x <> LF) l) lines ->
  lines !! k = Some line ->
  node_at doc parent = Some p ->
  (2 * k < length (childNodes p))%nat ->
  Forall (fun c => textContent c <> [LF]) (childNodes p) ->
  getCurrentLine (join_paragraphs lines) doc (parent ++ [(2 * k)%nat]) = line.
Proof.
  intros Hne Hlines Hk Hp Hlt Hall. unfold getCurrentLine.
  destruct (join_paragraphs lines) as [|c s] eqn:E; [done|]. rewrite <- E.
  assert (getCurrentLineIndex doc (parent ++ [(2 * k)%nat])
          = Z.of_nat (2 * k)) as ->.
  { unfold getCurrentLineIndex. rewrite rev_app_distr. simpl rev.
    cbn [app]. rewrite rev_involutive, Hp.
    rewrite (getCurrentLineIndex_loop_plain _ _ _ _ _ _ Hall) by lia. lia. }
  cbv zeta. destruct (Z.ltb_spec (Z.of_nat (2 * k)) 0); [lia|].
  rewrite Nat2Z.id.
  destruct lines as [|l lines]; [done|].
  inversion_clear Hlines as [|? ? Hl Hrest].
  by rewrite (split_char_paragraphs l lines k Hl Hrest), Hk.
Qed.

Lemma getCurrentLine_paragraph_witness :
  getCurrentLine (join_paragraphs [js "one,"; js "two."])
    (Element [Element [Text (js "one,"); Text [LF; LF]; Text (js "tw")]])
    ([0%nat] ++ [(2 * 1)%nat]) = js "two.".
Proof.
  apply (getCurrentLine_paragraph [js "one,"; js "two."] 1 (js "two.")
           (Element [Element [Text (js "one,"); Text [LF; LF]; Text (js "tw")]])
           (Element [Text (js "one,"); Text [LF; LF]; Text (js "tw")])
           [0%nat]).
  - discriminate.
  - repeat constructor; discriminate.
  - reflexivity.
  - reflexivity.
  - simpl. lia.
  - repeat constructor; discriminate.
Defined.

(* ================================================================== *)
(** * Further properties: the paste handler *)
(* ================================================================== *)

(** What a paste leaves alone.  A paste never changes the document or
    the selection.  When a target exists it changes nothing and prevents
    the default action; when it stores a new target, that target is the
    normalised clipboard text and is not empty. *)
Theorem onPaste_frame (contentToCopy : option (list N)) (e : pasteEvent)
    (st : state) :
  let st' := snd (onPaste contentToCopy e st) in
  tree st' = tree st /\
  windowSelection st' = windowSelection st /\
  (truthy contentToCopy <> None ->
   onPaste contentToCopy e st = (true, st)) /\
  (targetText st' = targetText st \/
   exists data : list N,
     truthy contentToCopy = None /\
     clipboardText e = Some data /\
     pastedData data <> [] /\
     targetText st' = Some (pastedData data)).
Proof.
  unfold onPaste.
  destruct (truthy contentToCopy) as [t|]; simpl; [by repeat split; auto|].
  destruct (paste_dontstealfocus e); simpl; [by repeat split; auto|].
  destruct (clipboardText e) as [data|]; simpl; [|by repeat split; auto].
  destruct (Z.ltb_spec (len (pastedData data)) 1); simpl.
  - by repeat split; auto.
  - repeat split; try done. right. exists data. repeat split; try done.
    intros E. rewrite E in *. unfold len in *. simpl in *. lia.
Qed.

Lemma onPaste_frame_witness :
  onPaste (Some (js "target")) (PasteEvent false (Some (js "other")))
    (State (Element []) (Some None) (Some (js "target")))
  = (true, State (Element []) (Some None) (Some (js "target"))).
Proof.
  apply (onPaste_frame (Some (js "target")) (PasteEvent false (Some (js "other")))
           (State (Element []) (Some None) (Some (js "target")))).
  discriminate.
Defined.

(* ================================================================== *)
(** * Further properties: the highlighted markup *)
(* ================================================================== *)

Lemma codePoints_units (text : list N) :
  (forall (i : nat) (x y : N),
     text !! i = Some x -> text !! S i = Some y ->
     isHighSurrogate x && isLowSurrogate y = false) ->
  codePoints text = map (fun c => [c]) text.
Proof.
  induction text as [|x rest IH]; intros Hpair; [done|].
  destruct rest as [|y rest']; [done|].
  change (codePoints (x :: y :: rest')) with
    (if isHighSurrogate x && isLowSurrogate y
     then [x; y] :: codePoints rest'
     else [x] :: codePoints (y :: rest')).
  rewrite (Hpair 0%nat x y eq_refl eq_refl). cbn [map]. rewrite IH; [done|].
  intros i a b Ha Hb. by apply (Hpair (S i)).
Qed.

Lemma tagged_lookup (P Q : nat -> bool) (text : list N) (i : nat) :
  tagged P Q text !! i =
  (fun c => Some ((if P i then js "<span>" else []) ++ [c] ++
                  (if Q i then js "</span>" else []))) <$> text !! i.
Proof. unfold tagged. apply list_lookup_imap. Qed.

Lemma tagged_length (P Q : nat -> bool) (text : list N) :
  length (tagged P Q text) = length text.
Proof. apply length_imap. Qed.

Lemma tagged_ext (P P' Q Q' : nat -> bool) (text : list N) :
  (forall i, (i < length text)%nat -> P i = P' i) ->
  (forall i, (i < length text)%nat -> Q i = Q' i) ->
  tagged P Q text = tagged P' Q' text.
Proof.
  intros HP HQ. apply list_eq. intros i. rewrite !tagged_lookup.
  destruct (text !! i) as [c|] eqn:E; [|done].
  apply lookup_lt_Some in E. simpl. by rewrite (HP i E), (HQ i E).
Qed.

Lemma tagged_plain (text : list N) :
  map Some (map (fun c => [c]) text) =
  tagged (fun _ => false) (fun _ => false) text.
Proof.
  apply list_eq. intros i. rewrite tagged_lookup, !list_lookup_fmap.
  by destruct (text !! i).
Qed.

Lemma join_tagged (P Q : nat -> bool) (text : list N) :
  join (tagged P Q text) =
  concat (imap (fun i c => (if P i then js "<span>" else []) ++ [c] ++
                           (if Q i then js "</span>" else [])) text).
Proof.
  unfold join, tagged. f_equal.
  apply list_eq. intros i. rewrite list_lookup_fmap, !list_lookup_imap.
  by destruct (text !! i).
Qed.

(** One run marks its first and its last letter. *)
Lemma onKeyUp_mark_tagged (P Q : nat -> bool) (text : list N) (s e : nat) :
  (s < e <= length text)%nat -> P s = false -> Q (e - 1)%nat = false ->
  onKeyUp_mark (tagged P Q text) [s; e] =
  tagged (fun i => P i || (i =? s)%nat) (fun i => Q i || (i =? e - 1)%nat)
         text.
Proof.
  intros Hse HP HQ.
  destruct e as [|k]; [lia|].
  replace (S k - 1)%nat with k in * by lia.
  destruct (lookup_lt_is_Some_2 text s ltac:(lia)) as [a Ha].
  destruct (lookup_lt_is_Some_2 text k ltac:(lia)) as [b Hb].
  unfold onKeyUp_mark, array_set, letter_at.
  rewrite tagged_lookup, Ha. cbn [fmap option_fmap option_map template].
  rewrite HP, tagged_length.
  destruct (Nat.ltb_spec s (length text)) as [_|]; [|lia].
  rewrite length_insert, tagged_length.
  destruct (Nat.ltb_spec k (length text)) as [_|]; [|lia].
  apply list_eq. intros j. rewrite tagged_lookup.
  destruct (decide (j = k)) as [->|Hjk].
  - rewrite list_lookup_insert_eq
      by (rewrite length_insert, tagged_length; lia).
    rewrite Hb, HQ, Nat.eqb_refl. cbn [fmap option_fmap option_map orb].
    do 2 f_equal.
    destruct (decide (k = s)) as [->|Hks].
    + rewrite list_lookup_insert_eq by (rewrite tagged_length; lia).
      rewrite HP, Nat.eqb_refl. cbn [orb default].
      replace b with a by congruence. by rewrite HQ.
    + rewrite list_lookup_insert_ne by done.
      rewrite tagged_lookup, Hb, HQ.
      apply Nat.eqb_neq in Hks. rewrite Hks, orb_false_r.
      cbn [fmap option_fmap option_map default]. unfold id.
      by rewrite <- !app_assoc.
  - rewrite list_lookup_insert_ne by done.
    apply Nat.eqb_neq in Hjk as Hjk'. rewrite Hjk', orb_false_r.
    destruct (decide (j = s)) as [->|Hjs].
    + rewrite list_lookup_insert_eq by (rewrite tagged_length; lia).
      rewrite Ha, HP, Nat.eqb_refl. done.
    + rewrite list_lookup_insert_ne by done.
      apply Nat.eqb_neq in Hjs. rewrite Hjs, orb_false_r.
      by rewrite tagged_lookup.
Qed.

(** The runs, taken in order, mark the letters at which they start and
    at which they end. *)
Lemma fold_onKeyUp_mark_tagged (contentToCopy text : list N)
    (rs : list (nat * nat)) : forall P Q : nat -> bool,
  Forall (fun r => (fst r < snd r <= length text)%nat) rs ->
  StronglySorted (apart contentToCopy text) rs ->
  Forall (fun r => P (fst r) = false /\ Q (snd r - 1)%nat = false) rs ->
  fold_left onKeyUp_mark (map run_array rs) (tagged P Q text) =
  tagged (fun i => P i || existsb (fun r => (i =? fst r)%nat) rs)
         (fun i => Q i || existsb (fun r => (i =? snd r - 1)%nat) rs) text.
Proof.
  induction rs as [|r rs IH]; intros P Q Hb Hs Hfresh;
    cbn [map fold_left existsb].
  - apply tagged_ext; intros i _; by rewrite orb_false_r.
  - inversion Hb as [|? ? Hr Hb']; subst.
    inversion Hs as [|? ? Hs' Hlater]; subst.
    inversion Hfresh as [|? ? [HP HQ] Hfresh']; subst.
    change (run_array r) with [fst r; snd r].
    rewrite (onKeyUp_mark_tagged P Q text (fst r) (snd r) Hr HP HQ).
    rewrite IH; [|done|done|].
    + apply tagged_ext; intros i _; by rewrite orb_assoc.
    + rewrite Forall_forall in Hb', Hlater, Hfresh'. apply Forall_forall.
      intros r' Hin.
      destruct (Hfresh' r' Hin) as [HP' HQ'].
      destruct (Hlater r' Hin) as [Hlt _].
      pose proof (Hb' r' Hin) as Hr'.
      rewrite HP', HQ'. simpl. split; apply Nat.eqb_neq; lia.
Qed.

Lemma existsb_opens (contentToCopy text : list N) (rs : list (nat * nat))
    (i : nat) :
  onKeyUp_errors contentToCopy text = map run_array rs ->
  Forall (maximal_run contentToCopy text) rs ->
  (i < length text)%nat ->
  existsb (fun r => (i =? fst r)%nat) rs = opens contentToCopy text i.
Proof.
  intros Hrs Hmax Hi. rewrite List.Forall_forall in Hmax.
  apply Bool.eq_iff_eq_true.
  rewrite existsb_exists. unfold opens. rewrite andb_true_iff. split.
  - intros (r & Hin & E). apply Nat.eqb_eq in E. subst i.
    destruct (Hmax r Hin) as [Hb Hd Hl _]. split.
    + apply differs_true, Hd. lia.
    + destruct (fst r) as [|j] eqn:Ej; [done|].
      destruct Hl as [|Hl]; [done|].
      simpl in Hl. rewrite Nat.sub_0_r in Hl.
      apply negb_true_iff. by apply differs_false.
  - intros [Hd Hprev]. apply differs_true in Hd.
    destruct (onKeyUp_errors_cover contentToCopy text i Hi Hd)
      as (s & e & Hin & Hse).
    rewrite Hrs in Hin. apply in_map_iff in Hin as (r & Hr & Hin).
    unfold run_array in Hr. injection Hr as <- <-.
    exists r. split; [done|]. apply Nat.eqb_eq.
    destruct (decide (i = fst r)) as [|Hne]; [done|]. exfalso.
    destruct i as [|j]; [lia|].
    destruct (Hmax r Hin) as [_ Hdiff _ _].
    apply negb_true_iff, differs_false in Hprev.
    apply (Hdiff j); [lia|done].
Qed.

Lemma existsb_closes (contentToCopy text : list N) (rs : list (nat * nat))
    (i : nat) :
  onKeyUp_errors contentToCopy text = map run_array rs ->
  Forall (maximal_run contentToCopy text) rs ->
  (i < length text)%nat ->
  existsb (fun r => (i =? snd r - 1)%nat) rs = closes contentToCopy text i.
Proof.
  intros Hrs Hmax Hi. rewrite List.Forall_forall in Hmax.
  apply Bool.eq_iff_eq_true.
  rewrite existsb_exists. unfold closes.
  rewrite andb_true_iff, orb_true_iff. split.
  - intros (r & Hin & E). apply Nat.eqb_eq in E.
    destruct (Hmax r Hin) as [Hb Hd _ Hr].
    assert (snd r = S i) as Hend by lia. split.
    + apply differs_true, Hd. lia.
    + rewrite Hend in Hr. destruct Hr as [Hr|Hr].
      * left. by apply Nat.eqb_eq.
      * right. apply negb_true_iff. by apply differs_false.
  - intros [Hd Hnext]. apply differs_true in Hd.
    destruct (onKeyUp_errors_cover contentToCopy text i Hi Hd)
      as (s & e & Hin & Hse).
    rewrite Hrs in Hin. apply in_map_iff in Hin as (r & Hr & Hin).
    unfold run_array in Hr. injection Hr as <- <-.
    exists r. split; [done|]. apply Nat.eqb_eq.
    destruct (decide (snd r = S i)) as [|Hne]; [lia|]. exfalso.
    destruct (Hmax r Hin) as [[_ Hlen] Hdiff _ _].
    destruct Hnext as [Hnext|Hnext].
    + apply Nat.eqb_eq in Hnext. lia.
    + apply negb_true_iff, differs_false in Hnext.
      apply (Hdiff (S i)); [lia|done].
Qed.

Lemma onKeyUp_innerHTML_tagged (contentToCopy text : list N) :
  (forall (i : nat) (x y : N),
     text !! i = Some x -> text !! S i = Some y ->
     isHighSurrogate x && isLowSurrogate y = false) ->
  onKeyUp_innerHTML contentToCopy text =
  join (tagged (opens contentToCopy text) (closes contentToCopy text) text).
Proof.
  intros Hbmp. unfold onKeyUp_innerHTML.
  destruct (onKeyUp_errors_runs contentToCopy text) as (rs & Hrs & Hmax & Hs).
  rewrite Hrs, (codePoints_units text Hbmp), tagged_plain. f_equal.
  rewrite (fold_onKeyUp_mark_tagged contentToCopy text rs); [|
    eapply List.Forall_impl; [|exact Hmax]; intros r [Hb _ _ _]; lia
    | done
    | apply Forall_forall; by intros ].
  apply tagged_ext; intros i Hi; simpl.
  - by apply existsb_opens.
  - by apply existsb_closes.
Qed.

(** The markup of the error layer, for a typed text without surrogate
    pairs (no high surrogate is followed by a low one): the letters of the typed text in order, with [<span>] before
    each differing letter that follows an agreeing one (or starts the
    text) and [</span>] after each differing letter that an agreeing one
    follows (or that ends the text). *)
Theorem onKeyUp_innerHTML_highlight (contentToCopy text : list N) :
  (forall (i : nat) (x y : N),
     text !! i = Some x -> text !! S i = Some y ->
     isHighSurrogate x && isLowSurrogate y = false) ->
  onKeyUp_innerHTML contentToCopy text = highlight contentToCopy text.
Proof.
  intros Hbmp. rewrite (onKeyUp_innerHTML_tagged contentToCopy text Hbmp).
  apply join_tagged.
Qed.

Lemma onKeyUp_innerHTML_highlight_witness :
  onKeyUp_innerHTML (js "the cat") (js "teh cat") =
  highlight (js "the cat") (js "teh cat").
Proof.
  apply (onKeyUp_innerHTML_highlight (js "the cat") (js "teh cat")).
  intros i x y Hx Hy.
  assert (isHighSurrogate x = false) as ->; [|done].
  apply list_elem_of_lookup_2 in Hx. revert x Hx.
  apply list.Forall_forall. repeat constructor.
Defined.

(** With a surrogate pair in the typed text the elements of [letters]
    no longer line up with the indices of the runs: here the run is
    [[0, 2)], the pair, and the highlight takes in the agreeing letter
    after it. *)
Example onKeyUp_innerHTML_surrogate_pair :
  onKeyUp_errors (js "xyab") ([55357; 56832] ++ js "ab")%N = [[0; 2]]%nat /\
  onKeyUp_innerHTML (js "xyab") ([55357; 56832] ++ js "ab")%N =
  (js "<span>" ++ [55357; 56832] ++ js "a</span>b")%N.
Proof. split; reflexivity. Qed.

(* ================================================================== *)
(** * Further properties: the keys that are let through *)
(* ================================================================== *)

Lemma NotAlphanumericRegex_test_alnum (key : list N) :
  Forall (fun c => isAlphanumeric c = true) key ->
  NotAlphanumericRegex_test key = false.
Proof.
  unfold NotAlphanumericRegex_test.
  induction 1 as [|c key Hc _ IH]; simpl; [done|]. by rewrite Hc, IH.
Qed.

Lemma str_eqb_neq (a b : list N) : a <> b -> str_eqb a b = false.
Proof.
  intros Hne. destruct (str_eqb a b) eqn:E; [|done].
  apply str_eqb_eq in E. contradiction.
Qed.

(** The keydown handler leaves every key made of ASCII letters and digits
    alone, Enter apart: a letter, a digit, and named keys such as
    Backspace, Shift or ArrowLeft.  Whatever the settings, the document
    and the selection are, it returns without preventing the default
    action and without changing anything. *)
Theorem onKeydown_alphanumeric_passes (contentToCopy : option (list N))
    (writer : list nat) (opts : settings) (innerText : list N)
    (e : keyEvent) (st : state) :
  Forall (fun c => isAlphanumeric c = true) (key e) ->
  key e <> js "Enter" ->
  onKeydown contentToCopy writer opts innerText e st = Handled false st.
Proof.
  intros Halnum Henter. unfold onKeydown.
  destruct (truthy contentToCopy) as [target|] eqn:Htarget; [|done].
  destruct (key_dontstealfocus e); [done|].
  destruct (metaKey e || altKey e || ctrlKey e); [done|].
  destruct (node_at (tree st) writer) as [w|]; [|done].
  rewrite (str_eqb_neq _ _ Henter).
  assert (str_eqb (key e) [SPACE] = false) as ->.
  { apply str_eqb_neq. intros Hkey. rewrite Hkey in Halnum.
    inversion Halnum as [|? ? Hc _]. discriminate Hc. }
  cbv iota. rewrite andb_false_r.
  destruct (ignore_punctuation opts); [|done].
  unfold handleIgnorePunctuation.
  by rewrite Htarget, (NotAlphanumericRegex_test_alnum _ Halnum).
Qed.

Lemma onKeydown_alphanumeric_passes_witness :
  let st := State (Element [Text (js "th")])
              (Some (Some (Range [0%nat] 2))) (Some (js "the quick")) in
  onKeydown (Some (js "the quick")) [] (Settings true true) (js "th")
    (KeyEvent (js "x") false false false false) st = Handled false st.
Proof.
  intros st.
  apply (onKeydown_alphanumeric_passes (Some (js "the quick")) []
           (Settings true true) (js "th")
           (KeyEvent (js "x") false false false false) st).
  - repeat constructor.
  - discriminate.
Defined.


